(** * salve-dom: the event emitter behind the validator's observer surface

    A shallow embedding of [build/dist/lib/event_emitter.js] (class
    [EventEmitter]) and of the declarations of
    [build/dist/lib/event_emitter.d.ts] that describe the validator's events,
    followed by the properties of listener dispatch.

    Listeners are JavaScript function objects.  They are compared by identity
    ([lastIndexOf] uses [===]), they may call back into the emitter while they
    run, and [addOneTimeEventListener] allocates a new function object on each
    call.  Function objects are therefore modelled by the identifiers of type
    [Func]; the bodies of the client's listeners are programs over the
    emitter's public methods, and the bodies of the one-time stubs are the
    source's own. *)

From stdpp Require Import base numbers strings list gmap.

Open Scope string_scope.
Open Scope list_scope.
Open Scope nat_scope.

(** ** Function objects and values *)

(** A function object: either a listener written by the client ([User n], the
    [n]-th function of the client's code), or the stub [me] allocated by the
    [k]-th call of [addOneTimeEventListener]. *)
Inductive Func : Type :=
| User (n : nat)
| Me (k : nat).

#[global] Instance Func_eq_dec : EqDecision Func.
Proof. solve_decision. Defined.

(** What a listener returns: [boolean | void].  Only [false] is looked at. *)
Inductive RetVal : Type :=
| RFalse
| RTrue
| RUndefined.

#[global] Instance RetVal_eq_dec : EqDecision RetVal.
Proof. solve_decision. Defined.

(** The two blocks of [_emit]. *)
Inductive Phase : Type :=
| General
| Named.

#[global] Instance Phase_eq_dec : EqDecision Phase.
Proof. solve_decision. Defined.

(** Who performs a call: the [d]-th activation of [_emit], from its first or
    its second block, or a one-time stub through [listener.apply]. *)
Inductive Caller : Type :=
| ByEmit (d : nat) (ph : Phase)
| ByWrapper (me : Func).

(** ** Array primitives used by the class *)

(** [Array.prototype.lastIndexOf]: scan the indices below [fromIndex]
    downwards, comparing with [===]; -1 when nothing is found. *)
Fixpoint lastIndexOf_from (l : list Func) (x : Func) (fromIndex : nat) : Z :=
  match fromIndex with
  | O => (-1)%Z
  | S k =>
      match l !! k with
      | Some y => if decide (y = x) then Z.of_nat k
                  else lastIndexOf_from l x k
      | None => lastIndexOf_from l x k
      end
  end.

Definition lastIndexOf (l : list Func) (x : Func) : Z :=
  lastIndexOf_from l x (length l).

(** [l.splice(index, 1)] for [0 <= index]: the array without the element at
    [index] (unchanged when [index] is past the end). *)
Definition splice1 (l : list Func) (index : Z) : list Func :=
  take (Z.to_nat index) l ++ drop (S (Z.to_nat index)) l.

(** ** The emitter object *)

Record EventEmitter : Type := mkEmitter {
  _eventListeners : gmap string (list Func);
  _generalListeners : list Func;
  _trace : bool
}.

(** [constructor()] *)
Definition new_EventEmitter : EventEmitter :=
  {| _eventListeners := ∅; _generalListeners := []; _trace := false |}.

Definition set_eventListeners (m : gmap string (list Func))
    (em : EventEmitter) : EventEmitter :=
  {| _eventListeners := m;
     _generalListeners := _generalListeners em;
     _trace := _trace em |}.

Definition set_generalListeners (l : list Func)
    (em : EventEmitter) : EventEmitter :=
  {| _eventListeners := _eventListeners em;
     _generalListeners := l;
     _trace := _trace em |}.

(** [addEventListener(eventName, listener)]: [push] on the wildcard array, or
    on the array of [eventName], created when it is [undefined]. *)
Definition addEventListener (eventName : string) (listener : Func)
    (em : EventEmitter) : EventEmitter :=
  if decide (eventName = "*") then
    set_generalListeners (_generalListeners em ++ [listener]) em
  else
    let listeners :=
      match _eventListeners em !! eventName with
      | Some listeners => listeners
      | None => []
      end in
    set_eventListeners
      (<[eventName := listeners ++ [listener]]> (_eventListeners em)) em.

(** The array [removeEventListener] works on; [None] is [undefined]. *)
Definition listeners_of (eventName : string) (em : EventEmitter)
  : option (list Func) :=
  if decide (eventName = "*") then Some (_generalListeners em)
  else _eventListeners em !! eventName.

(** Writing back an array that the source mutates in place. *)
Definition store_listeners (eventName : string) (l : list Func)
    (em : EventEmitter) : EventEmitter :=
  if decide (eventName = "*") then set_generalListeners l em
  else set_eventListeners (<[eventName := l]> (_eventListeners em)) em.

(** [removeEventListener(eventName, listener)] *)
Definition removeEventListener (eventName : string) (listener : Func)
    (em : EventEmitter) : EventEmitter :=
  match listeners_of eventName em with
  | None => em
  | Some listeners =>
      let index := lastIndexOf listeners listener in
      if decide (index ≠ (-1)%Z) then
        store_listeners eventName (splice1 listeners index) em
      else em
  end.

(** [removeAllListeners(eventName)] *)
Definition removeAllListeners (eventName : string)
    (em : EventEmitter) : EventEmitter :=
  if decide (eventName = "*") then set_generalListeners [] em
  else set_eventListeners (<[eventName := []]> (_eventListeners em)) em.

(** ** The validator's events ([event_emitter.d.ts]) *)

(** [enum WorkingState] *)
Inductive WorkingState : Type :=
| INCOMPLETE
| WORKING
| INVALID
| VALID.

(** The number each member is declared with. *)
Definition WorkingState_value (s : WorkingState) : Z :=
  match s with
  | INCOMPLETE => 1
  | WORKING => 2
  | INVALID => 3
  | VALID => 4
  end.

(** The reverse mapping of a numeric enum. *)
Definition WorkingState_of_value (z : Z) : option WorkingState :=
  if decide (z = 1%Z) then Some INCOMPLETE
  else if decide (z = 2%Z) then Some WORKING
  else if decide (z = 3%Z) then Some INVALID
  else if decide (z = 4%Z) then Some VALID
  else None.

Section Declarations.

(** Types that the declarations import or take from the DOM, and
    JavaScript's [number]. *)
Context {ValidationError Node number : Type}.

(** [interface ErrorData { error: ValidationError; node?: Node | null;
    index?: number; }]: an optional member may be absent, and [node] may
    also be [null]. *)
Record ErrorData : Type := mkErrorData {
  error : ValidationError;
  node : option (option Node);
  index : option number
}.

(** [interface ResetData { at: number; }]; the member [at] is written
    [at_] here. *)
Record ResetData : Type := mkResetData {
  at_ : number
}.

(** [interface WorkingStateData { state: WorkingState; partDone: number; }] *)
Record WorkingStateData : Type := mkWorkingStateData {
  state : WorkingState;
  partDone : number
}.

(** The members of [interface Events]. *)
Inductive EventKey : Type :=
| Error_
| ResetErrors
| StateUpdate
| PossibleDueToWildcardChange.

(** The property name of each member. *)
Definition event_name (k : EventKey) : string :=
  match k with
  | Error_ => "error"
  | ResetErrors => "reset-errors"
  | StateUpdate => "state-update"
  | PossibleDueToWildcardChange => "possible-due-to-wildcard-change"
  end.

(** The type each member is declared with: [Events[k]]. *)
Definition Events (k : EventKey) : Type :=
  match k with
  | Error_ => ErrorData
  | ResetErrors => ResetData
  | StateUpdate => WorkingStateData
  | PossibleDueToWildcardChange => Node
  end.

(** The member called [s], if [Events] has one. *)
Definition event_key_of (s : string) : option EventKey :=
  if decide (s = "error") then Some Error_
  else if decide (s = "reset-errors") then Some ResetErrors
  else if decide (s = "state-update") then Some StateUpdate
  else if decide (s = "possible-due-to-wildcard-change")
       then Some PossibleDueToWildcardChange
  else None.

End Declarations.

(** ** Listeners that run: the world around the emitter *)

Section Dispatch.

(** The type of event data ("the type can be anything") and the state that the
    client's listeners keep in their own closures. *)
Context {Payload UState : Type}.

(** An argument of a listener call: a wildcard listener is called with
    [(eventName, ev)], a name-keyed listener with [(ev)]. *)
Inductive Value : Type :=
| VStr (s : string)
| VData (ev : Payload).

(** The body of a client listener: a program over the emitter's methods and
    the client's own state, ending in [return r] or in a [throw]. *)
Inductive Prog : Type :=
| Return (r : RetVal)
| Throw
| AddEventListener (eventName : string) (listener : Func) (k : Prog)
| AddOneTimeEventListener (eventName : string) (listener : Func)
    (k : Func → Prog)
| RemoveEventListener (eventName : string) (listener : Func) (k : Prog)
| RemoveAllListeners (eventName : string) (k : Prog)
| Emit (eventName : string) (ev : Payload) (k : Prog)
| GetState (k : UState → Prog)
| PutState (s : UState) (k : Prog).

(** A record of the run, kept to state the properties; the emitter never
    reads it. *)
Inductive LogEvent : Type :=
| LConsole (eventName : string) (ev : Payload)
| LDispatch (d : nat) (eventName : string) (ev : Payload)
| LCall (c : Caller) (f : Func) (args : list Value)
| LReturn (c : Caller) (f : Func) (r : RetVal).

Record World : Type := mkWorld {
  this : EventEmitter;
  (** the stubs allocated so far: what [me] number [k] captured *)
  closures : list (string * Func);
  user : UState;
  (** ghost: what happened, oldest first *)
  log : list LogEvent;
  (** ghost: how many activations of [_emit] there have been *)
  ndispatch : nat
}.

Definition upd_this (f : EventEmitter → EventEmitter) (w : World) : World :=
  {| this := f (this w); closures := closures w; user := user w;
     log := log w; ndispatch := ndispatch w |}.

Definition set_user (s : UState) (w : World) : World :=
  {| this := this w; closures := closures w; user := s;
     log := log w; ndispatch := ndispatch w |}.

Definition log_event (x : LogEvent) (w : World) : World :=
  {| this := this w; closures := closures w; user := user w;
     log := log w ++ [x]; ndispatch := ndispatch w |}.

Definition alloc_closure (eventName : string) (listener : Func)
    (w : World) : World :=
  {| this := this w; closures := closures w ++ [(eventName, listener)];
     user := user w; log := log w; ndispatch := ndispatch w |}.

Definition next_dispatch (w : World) : World :=
  {| this := this w; closures := closures w; user := user w;
     log := log w; ndispatch := S (ndispatch w) |}.

(** [addOneTimeEventListener(eventName, listener)]: allocate the stub [me],
    register it, return it. *)
Definition addOneTimeEventListener (eventName : string) (listener : Func)
    (w : World) : Func * World :=
  let me := Me (length (closures w)) in
  (me, upd_this (addEventListener eventName me)
         (alloc_closure eventName listener w)).

(** The outcome of running code: a value and the world it leaves, or an
    exception that nothing in this class catches. *)
Inductive Res (A : Type) : Type :=
| Ok (a : A) (w : World)
| Thrown (w : World).
Arguments Ok {A} a w.
Arguments Thrown {A} w.

Definition world_of {A : Type} (r : Res A) : World :=
  match r with
  | Ok _ w => w
  | Thrown w => w
  end.

Definition is_Ok {A : Type} (r : Res A) : bool :=
  match r with
  | Ok _ _ => true
  | Thrown _ => false
  end.

(** How a [for ... of] loop of [_emit] ends: it runs off the end of the
    snapshot, or executes [return]. *)
Inductive Flow : Type :=
| Continue
| Halt.

(** The client's code: the body of function [User n] applied to [args]. *)
Variable code : nat → list Value → Prog.

(** Running a listener body, given [_emit]. *)
Fixpoint run_prog (emit : string → Payload → World → Res unit)
    (p : Prog) (w : World) : Res RetVal :=
  match p with
  | Return r => Ok r w
  | Throw => Thrown w
  | AddEventListener eventName listener k =>
      run_prog emit k (upd_this (addEventListener eventName listener) w)
  | AddOneTimeEventListener eventName listener k =>
      let '(me, w') := addOneTimeEventListener eventName listener w in
      run_prog emit (k me) w'
  | RemoveEventListener eventName listener k =>
      run_prog emit k (upd_this (removeEventListener eventName listener) w)
  | RemoveAllListeners eventName k =>
      run_prog emit k (upd_this (removeAllListeners eventName) w)
  | Emit eventName ev k =>
      match emit eventName ev w with
      | Ok _ w' => run_prog emit k w'
      | Thrown w' => Thrown w'
      end
  | GetState k => run_prog emit (k (user w)) w
  | PutState s k => run_prog emit k (set_user s w)
  end.

(** [for (const listener of listeners) { const ret = listener.call(...);
    if (ret === false) { return; } }] over the copy [listeners]. *)
Fixpoint for_of (callf : Func → list Value → World → Res RetVal)
    (c : Caller) (args : list Value) (listeners : list Func)
    (w : World) : Res Flow :=
  match listeners with
  | [] => Ok Continue w
  | listener :: rest =>
      match callf listener args (log_event (LCall c listener args) w) with
      | Thrown w' => Thrown w'
      | Ok ret w' =>
          let w'' := log_event (LReturn c listener ret) w' in
          if decide (ret = RFalse) then Ok Halt w''
          else for_of callf c args rest w''
      end
  end.

(** Entering [_emit]: the activation gets its number, and the trace line is
    printed when [_trace] is set. *)
Definition dispatch_begin (eventName : string) (ev : Payload)
    (w : World) : World :=
  let w0 := if _trace (this w) then log_event (LConsole eventName ev) w
            else w in
  log_event (LDispatch (ndispatch w) eventName ev) (next_dispatch w0).

(** First block of [_emit]: the wildcard listeners. *)
Definition general_block (callf : Func → list Value → World → Res RetVal)
    (d : nat) (eventName : string) (ev : Payload) (w : World) : Res Flow :=
  let listeners := _generalListeners (this w) in
  if decide (0 < length listeners) then
    for_of callf (ByEmit d General) [VStr eventName; VData ev] listeners w
  else Ok Continue w.

(** Second block of [_emit]: the listeners of [eventName]. *)
Definition named_block (callf : Func → list Value → World → Res RetVal)
    (d : nat) (eventName : string) (ev : Payload) (w : World) : Res Flow :=
  match _eventListeners (this w) !! eventName with
  | Some listeners =>
      if decide (0 < length listeners) then
        for_of callf (ByEmit d Named) [VData ev] listeners w
      else Ok Continue w
  | None => Ok Continue w
  end.

Definition finish (r : Res Flow) : Res unit :=
  match r with
  | Ok _ w => Ok tt w
  | Thrown w => Thrown w
  end.

Definition emit_with (callf : Func → list Value → World → Res RetVal)
    (eventName : string) (ev : Payload) (w : World) : Res unit :=
  let d := ndispatch w in
  match general_block callf d eventName ev (dispatch_begin eventName ev w) with
  | Thrown w' => Thrown w'
  | Ok Halt w' => Ok tt w'
  | Ok Continue w1 => finish (named_block callf d eventName ev w1)
  end.

(** Calling a function object.  [fuel] bounds the depth of nested calls of
    listeners; running out of it is the engine's stack overflow, an
    exception.  The frames of [_emit] itself and of [console.log] are not
    counted: nothing is said here about how little stack a dispatch
    needs. *)
Fixpoint call (fuel : nat) (f : Func) (args : list Value)
    (w : World) : Res RetVal :=
  match fuel with
  | O => Thrown w
  | S fuel' =>
      match f with
      | User n => run_prog (emit_with (call fuel')) (code n args) w
      | Me k =>
          (* const me = (...args) => {
               this.removeEventListener(eventName, me);
               return listener.apply(this, args); } *)
          match closures w !! k with
          | None => Thrown w
          | Some (eventName, listener) =>
              let w1 := upd_this (removeEventListener eventName (Me k)) w in
              match call fuel' listener args
                      (log_event (LCall (ByWrapper (Me k)) listener args) w1)
              with
              | Ok r w2 =>
                  Ok r (log_event (LReturn (ByWrapper (Me k)) listener r) w2)
              | Thrown w2 => Thrown w2
              end
          end
      end
  end.

(** [_emit(eventName, ev)] *)
Definition _emit (fuel : nat) (eventName : string) (ev : Payload)
    (w : World) : Res unit :=
  emit_with (call fuel) eventName ev w.

(** The first block of an activation of [_emit], from the world in which
    [_emit] is called. *)
Definition general_phase (fuel : nat) (eventName : string) (ev : Payload)
    (w : World) : Res Flow :=
  general_block (call fuel) (ndispatch w) eventName ev
    (dispatch_begin eventName ev w).

(** What an activation of [_emit] appends to the log. *)
Definition emitted (fuel : nat) (eventName : string) (ev : Payload)
    (w : World) : list LogEvent :=
  drop (length (log w)) (log (world_of (_emit fuel eventName ev w))).

(** ** Reading the log *)

(** The activation of [_emit] that logged an event, if one did. *)
Definition event_id (x : LogEvent) : option nat :=
  match x with
  | LDispatch d _ _ => Some d
  | LCall (ByEmit d _) _ _ => Some d
  | LReturn (ByEmit d _) _ _ => Some d
  | _ => None
  end.

(** All the activations that speak in [evs] are numbered [n] or more. *)
Definition fresh (n : nat) (evs : list LogEvent) : Prop :=
  Forall (λ x, ∀ d, event_id x = Some d → n ≤ d) evs.

(** A call made by activation [d] itself, from one of its two loops. *)
Definition direct_call (d : nat) (x : LogEvent)
  : option (Phase * Func * list Value) :=
  match x with
  | LCall (ByEmit d' ph) f args =>
      if decide (d' = d) then Some (ph, f, args) else None
  | _ => None
  end.

(** The calls that activation [d] makes itself, in order. *)
Definition direct_calls (d : nat) (evs : list LogEvent)
  : list (Phase * Func * list Value) :=
  omap (direct_call d) evs.

(** How many times activation [d] itself calls [f]. *)
Definition invocations (d : nat) (f : Func) (evs : list LogEvent) : nat :=
  length (filter (λ c, c.1.2 = f) (direct_calls d evs)).

(** A listener hands [false] back to activation [d]. *)
Definition is_halt (d : nat) (x : LogEvent) : bool :=
  match x with
  | LReturn (ByEmit d' _) _ RFalse => bool_decide (d' = d)
  | _ => false
  end.

Definition halt_free (d : nat) (evs : list LogEvent) : Prop :=
  Forall (λ x, is_halt d x = false) evs.

(** [evs] ends with a listener handing [false] back to activation [d], in
    block [ph], and nothing before it does. *)
Definition ends_with_halt (d : nat) (ph : Phase)
    (evs : list LogEvent) : Prop :=
  ∃ pre f, evs = pre ++ [LReturn (ByEmit d ph) f RFalse] ∧ halt_free d pre.

(** Calls of [f] made by one-time stubs, anywhere in [evs]. *)
Definition wrapped_call (f : Func) (x : LogEvent) : bool :=
  match x with
  | LCall (ByWrapper _) g _ => bool_decide (g = f)
  | _ => false
  end.

Definition wrapped_calls (f : Func) (evs : list LogEvent) : nat :=
  length (List.filter (wrapped_call f) evs).

(** [w'] is [w] after some code has run: the log has grown by events of
    activations that did not exist in [w]. *)
Definition extends (w w' : World) : Prop :=
  ndispatch w ≤ ndispatch w' ∧
  ∃ evs, log w' = log w ++ evs ∧ fresh (ndispatch w) evs.

(** How many times [f] is registered in the array [l]. *)
Definition registrations (f : Func) (l : list Func) : nat :=
  length (filter (λ g, g = f) l).


(** How a loop of [_emit] stops: it has gone through its whole copy, or a
    listener returned [false], or a listener threw. *)
Inductive Stop : Type :=
| Finished
| ReturnedFalse (f : Func)
| Threw (f : Func).

Definition outcome (s : Stop) (w : World) : Res Flow :=
  match s with
  | Finished => Ok Continue w
  | ReturnedFalse _ => Ok Halt w
  | Threw _ => Thrown w
  end.

(** [loop_run callf c args ls w p s w']: starting in [w], the listeners [p]
    of the copy [ls] are called one after the other, each by applying
    [callf] to it and to [args] in the world left by the one before; the
    loop stops as [s] says and leaves [w']. *)
Inductive loop_run (callf : Func → list Value → World → Res RetVal)
    (c : Caller) (args : list Value)
  : list Func → World → list Func → Stop → World → Prop :=
| run_nil w :
    loop_run callf c args [] w [] Finished w
| run_throw l rest w w' :
    callf l args (log_event (LCall c l args) w) = Thrown w' →
    loop_run callf c args (l :: rest) w [l] (Threw l) w'
| run_false l rest w w' :
    callf l args (log_event (LCall c l args) w) = Ok RFalse w' →
    loop_run callf c args (l :: rest) w [l] (ReturnedFalse l)
      (log_event (LReturn c l RFalse) w')
| run_next l rest w r w1 p s w' :
    callf l args (log_event (LCall c l args) w) = Ok r w1 →
    r ≠ RFalse →
    loop_run callf c args rest (log_event (LReturn c l r) w1) p s w' →
    loop_run callf c args (l :: rest) w (l :: p) s w'.

(** The last listener a stopped loop called is the one that stopped it; a
    finished loop called its whole copy. *)
Definition stopped_at (s : Stop) (p ls : list Func) : Prop :=
  match s with
  | Finished => p = ls
  | ReturnedFalse f => last p = Some f
  | Threw f => last p = Some f
  end.

(** The steps a run is made of: a call of one of the emitter's methods, the
    allocation of a stub, a write to the client's own state, and the entries
    of the log.  The trace line is only printed when [_trace] is set. *)
Inductive prim_step : World → World → Prop :=
| step_add eventName listener w :
    prim_step w (upd_this (addEventListener eventName listener) w)
| step_remove eventName listener w :
    prim_step w (upd_this (removeEventListener eventName listener) w)
| step_remove_all eventName w :
    prim_step w (upd_this (removeAllListeners eventName) w)
| step_alloc eventName listener w :
    prim_step w (alloc_closure eventName listener w)
| step_user s w :
    prim_step w (set_user s w)
| step_console eventName ev w :
    _trace (this w) = true →
    prim_step w (log_event (LConsole eventName ev) w)
| step_dispatch eventName ev w :
    prim_step w
      (log_event (LDispatch (ndispatch w) eventName ev) (next_dispatch w))
| step_call c f args w :
    prim_step w (log_event (LCall c f args) w)
| step_return c f r w :
    prim_step w (log_event (LReturn c f r) w).

(** A line printed by [console.log]. *)
Definition is_console (x : LogEvent) : bool :=
  match x with
  | LConsole _ _ => true
  | _ => false
  end.

(** A listener written by the client, not a one-time stub. *)
Definition is_user (f : Func) : bool :=
  match f with
  | User _ => true
  | Me _ => false
  end.

(** The listeners of the copy [ls] that a loop of [_emit] reaches when the
    listeners return [rets]: all of them up to and including the first that
    returns [false]. *)
Fixpoint reached (rets : Func → RetVal) (ls : list Func)
  : list Func * Flow :=
  match ls with
  | [] => ([], Continue)
  | l :: rest =>
      if decide (rets l = RFalse) then ([l], Halt)
      else let '(p, fl) := reached rets rest in (l :: p, fl)
  end.

(** What function [f] returns on [args] when the client's functions only
    return: [ret n args] for the client's function [n]. *)
Definition returns_of (ret : nat → list Value → RetVal)
    (args : list Value) (f : Func) : RetVal :=
  match f with
  | User n => ret n args
  | Me _ => RUndefined
  end.

(** The log of a loop in which the listeners [p] are called by [c] and
    return [rets] without doing anything else. *)
Definition loop_events (c : Caller) (args : list Value)
    (rets : Func → RetVal) (p : list Func) : list LogEvent :=
  flat_map (λ l, [LCall c l args; LReturn c l (rets l)]) p.

(** How many times [f] is registered under [eventName]. *)
Definition regs_under (f : Func) (eventName : string)
    (em : EventEmitter) : nat :=
  registrations f (default [] (listeners_of eventName em)).

(** [em'] registers nothing that [em] does not. *)
Definition shrinks (em em' : EventEmitter) : Prop :=
  ∀ eventName f, regs_under f eventName em' ≤ regs_under f eventName em.

(** A listener of the client, or a one-time stub around one. *)
Definition simple_listener (cl : list (string * Func)) (f : Func) : Prop :=
  match f with
  | User _ => True
  | Me j => ∃ eventName n, cl !! j = Some (eventName, User n)
  end.

(** Every registered listener is simple. *)
Definition simple_world (w : World) : Prop :=
  ∀ eventName l,
    listeners_of eventName (this w) = Some l →
    Forall (simple_listener (closures w)) l.

(** A call of [f], by [_emit] or by a stub. *)
Definition is_call_of (f : Func) (x : LogEvent) : bool :=
  match x with
  | LCall _ g _ => bool_decide (g = f)
  | _ => false
  end.

Definition calls_of (f : Func) (evs : list LogEvent) : nat :=
  length (List.filter (is_call_of f) evs).

(** The client emits the events [es] one after the other. *)
Fixpoint emit_all (fuel : nat) (es : list (string * Payload))
    (w : World) : Res unit :=
  match es with
  | [] => Ok tt w
  | (eventName, ev) :: rest =>
      match _emit fuel eventName ev w with
      | Ok _ w' => emit_all fuel rest w'
      | Thrown w' => Thrown w'
      end
  end.

(** [callf'] returns whatever [callf] returns. *)
Definition refines
    (callf callf' : Func → list Value → World → Res RetVal) : Prop :=
  ∀ f args w r w', callf f args w = Ok r w' → callf' f args w = Ok r w'.

(** What the functions that call listeners are assumed to do to the log;
    [call] does it. *)
Definition well_behaved
    (callf : Func → list Value → World → Res RetVal) : Prop :=
  ∀ f args w, extends w (world_of (callf f args w)).

End Dispatch.

Arguments Ok {Payload UState A} a w.
Arguments Thrown {Payload UState A} w.

(** ** Scenarios

    Small clients, with numbers for event data and no state of their own. *)

Module Scenarios.

Definition start : @World nat unit :=
  {| this := new_EventEmitter; closures := []; user := tt;
     log := []; ndispatch := 0 |}.



(** Function 0 is registered twice for ["foo"]; when it is called it
    removes both of its registrations. *)
Definition code_selfremove (n : nat) (args : list (@Value nat))
  : @Prog nat unit :=
  match n with
  | 0 => RemoveEventListener "foo" (User 0)
           (RemoveEventListener "foo" (User 0) (Return RUndefined))
  | _ => Return RUndefined
  end.

Definition w_twice : @World nat unit :=
  upd_this (addEventListener "foo" (User 0))
    (upd_this (addEventListener "foo" (User 0)) start).

(** Function 0 emits ["foo"] again, with 1, when it receives 0; function 1
    does nothing.  Function 0 is registered for ["foo"], then function 1 is
    registered for ["foo"] with [addOneTimeEventListener]. *)
Definition code_reemit (n : nat) (args : list (@Value nat))
  : @Prog nat unit :=
  match n, args with
  | 0, [VData 0] => Emit "foo" 1 (Return RUndefined)
  | _, _ => Return RUndefined
  end.

Definition w_once : @World nat unit :=
  snd (addOneTimeEventListener "foo" (User 1)
         (upd_this (addEventListener "foo" (User 0)) start)).

(** Function 0 returns [false], function 1 returns nothing; a wildcard
    listener and two listeners of ["foo"]. *)
Definition code_halt (n : nat) (args : list (@Value nat))
  : @Prog nat unit :=
  match n with
  | 0 => Return RFalse
  | _ => Return RUndefined
  end.

Definition w_quiet : @World nat unit :=
  upd_this (addEventListener "foo" (User 2))
    (upd_this (addEventListener "foo" (User 1))
       (upd_this (addEventListener "*" (User 3)) start)).

(** Function 0, which returns [false], registered once for ["foo"] with
    [addOneTimeEventListener], before function 1. *)
Definition w_once_halt : @World nat unit :=
  upd_this (addEventListener "foo" (User 1))
    (snd (addOneTimeEventListener "foo" (User 0) start)).

(** What the functions of [code_halt] return. *)
Definition ret_halt (n : nat) (args : list (@Value nat)) : RetVal :=
  match n with
  | 0 => RFalse
  | _ => RUndefined
  end.

(** Function 0, which returns [false], listens to ["*"]; function 1 listens
    to ["foo"]. *)
Definition w_wild_halt : @World nat unit :=
  upd_this (addEventListener "foo" (User 1))
    (upd_this (addEventListener "*" (User 0)) start).

(** Function 1 registered once for ["foo"] with [addOneTimeEventListener],
    before function 2. *)
Definition w_once_quiet : @World nat unit :=
  upd_this (addEventListener "foo" (User 2))
    (snd (addOneTimeEventListener "foo" (User 1) start)).

(** An emitter with three registrations for ["foo"]. *)
Definition em_three : EventEmitter :=
  addEventListener "foo" (User 0)
    (addEventListener "foo" (User 1)
       (addEventListener "foo" (User 0) new_EventEmitter)).

(** Function 0 throws; it listens to ["*"], before function 1. *)
Definition code_throw (n : nat) (args : list (@Value nat))
  : @Prog nat unit :=
  match n with
  | 0 => Throw
  | _ => Return RUndefined
  end.

Definition w_two_wild : @World nat unit :=
  upd_this (addEventListener "*" (User 1))
    (upd_this (addEventListener "*" (User 0)) start).

(** Function 0, which returns [false], between functions 1 and 2, all three
    listening to ["foo"]. *)
Definition w_halt_mid : @World nat unit :=
  upd_this (addEventListener "foo" (User 2))
    (upd_this (addEventListener "foo" (User 0))
       (upd_this (addEventListener "foo" (User 1)) start)).

End Scenarios.

(** * Properties *)

(** ** [lastIndexOf] and [splice] *)

Lemma lastIndexOf_from_spec (l : list Func) (x : Func) (n : nat) :
  (lastIndexOf_from l x n = (-1)%Z ∧ ∀ j, j < n → l !! j ≠ Some x) ∨
  (∃ i, lastIndexOf_from l x n = Z.of_nat i ∧ i < n ∧
     l !! i = Some x ∧ ∀ j, i < j < n → l !! j ≠ Some x).
Proof.
  induction n as [|n IH]; simpl.
  - left. split; [done | intros j Hj; lia].
  - destruct (l !! n) as [y|] eqn:Hn.
    + destruct (decide (y = x)) as [->|Hne].
      * right. exists n. repeat split; [lia | done | intros j Hj; lia].
      * destruct IH as [[E H] | (i & E & Hi & Hx & H)].
        -- left. split; [done|]. intros j Hj.
           destruct (decide (j = n)) as [->|]; [congruence | apply H; lia].
        -- right. exists i. repeat split; [done | lia | done |].
           intros j Hj.
           destruct (decide (j = n)) as [->|]; [congruence | apply H; lia].
    + destruct IH as [[E H] | (i & E & Hi & Hx & H)].
      * left. split; [done|]. intros j Hj.
        destruct (decide (j = n)) as [->|]; [congruence | apply H; lia].
      * right. exists i. repeat split; [done | lia | done |].
        intros j Hj.
        destruct (decide (j = n)) as [->|]; [congruence | apply H; lia].
Qed.

(** [lastIndexOf] finds nothing exactly when [x] is not in the array;
    otherwise it splits the array at the last occurrence of [x]. *)
Lemma lastIndexOf_spec (l : list Func) (x : Func) :
  (lastIndexOf l x = (-1)%Z ∧ (x ∉ l)) ∨
  (∃ pre post, l = pre ++ x :: post ∧ (x ∉ post) ∧
     lastIndexOf l x = Z.of_nat (length pre)).
Proof.
  unfold lastIndexOf.
  destruct (lastIndexOf_from_spec l x (length l))
    as [[E H] | (i & E & Hi & Hx & H)].
  - left. split; [done|]. intros Hin.
    apply list_elem_of_lookup in Hin as [j Hj].
    apply (H j); [eapply lookup_lt_Some; eassumption | done].
  - right. exists (take i l), (drop (S i) l).
    split; [by rewrite take_drop_middle|].
    split.
    + intros Hin. apply list_elem_of_lookup in Hin as [j Hj].
      rewrite lookup_drop in Hj.
      apply (H (S i + j)); [|done].
      apply lookup_lt_Some in Hj. lia.
    + rewrite E, length_take. f_equal. lia.
Qed.

Lemma splice1_middle (pre post : list Func) (x : Func) :
  splice1 (pre ++ x :: post) (Z.of_nat (length pre)) = pre ++ post.
Proof.
  unfold splice1. rewrite Nat2Z.id, take_app_length. f_equal.
  rewrite drop_app_ge by lia.
  by replace (S (length pre) - length pre) with 1 by lia.
Qed.

(** ** Removing listeners *)

Lemma listeners_of_store_eq (E : string) (l : list Func) (em : EventEmitter) :
  listeners_of E (store_listeners E l em) = Some l.
Proof.
  unfold listeners_of, store_listeners.
  destruct (decide (E = "*")); simpl; [done | by rewrite lookup_insert_eq].
Qed.

Lemma listeners_of_store_ne (E E' : string) (l : list Func)
    (em : EventEmitter) :
  E' ≠ E → listeners_of E' (store_listeners E l em) = listeners_of E' em.
Proof.
  intros Hne. unfold listeners_of, store_listeners.
  destruct (decide (E = "*")), (decide (E' = "*")); simpl;
    try done; [congruence | by rewrite lookup_insert_ne].
Qed.

Lemma trace_store (E : string) (l : list Func) (em : EventEmitter) :
  _trace (store_listeners E l em) = _trace em.
Proof. unfold store_listeners. by destruct (decide (E = "*")). Qed.

(** C8.  [removeEventListener(E, L)] works on one array, the wildcard array
    when [E] is ["*"] and the array of [E] otherwise, and leaves the arrays
    of all other names alone.  When [L] is in that array, the array loses
    its last occurrence of [L], the one added most recently, and nothing
    else; when [L] is not in it, or [E] has no array, the emitter is left as
    it is. *)
Theorem removeEventListener_removes_the_last_registration
    (E : string) (L : Func) (em : EventEmitter) :
  let em' := removeEventListener E L em in
  _trace em' = _trace em ∧
  (∀ E', E' ≠ E → listeners_of E' em' = listeners_of E' em) ∧
  match listeners_of E em with
  | None => em' = em
  | Some l =>
      (L ∉ l → em' = em) ∧
      (L ∈ l → ∃ pre post,
         l = pre ++ L :: post ∧ (L ∉ post) ∧
         listeners_of E em' = Some (pre ++ post))
  end.
Proof.
  intros em'. subst em'. unfold removeEventListener.
  destruct (listeners_of E em) as [l|] eqn:Hl; [|done].
  destruct (lastIndexOf_spec l L) as [[Hi Hnot] | (pre & post & -> & Hpost & Hi)].
  - rewrite Hi. rewrite decide_False by (intros H; by apply H).
    split; [done|]. split; [done|]. split; [done|]. intros Hin. done.
  - rewrite Hi. rewrite decide_True by lia. rewrite splice1_middle.
    split; [apply trace_store|].
    split; [intros E' Hne; by apply listeners_of_store_ne|].
    split.
    + intros Hnot. exfalso. apply Hnot. set_solver.
    + intros _. exists pre, post.
      split; [done|]. split; [done|]. apply listeners_of_store_eq.
Qed.

(** C9.  [removeAllListeners(E)] leaves the array of [E] empty and every
    other array as it was: for [E] other than ["*"] the wildcard array and
    the arrays of the other names, for ["*"] all the arrays kept by name. *)
Theorem removeAllListeners_empties_one_list_only
    (E : string) (em : EventEmitter) :
  let em' := removeAllListeners E em in
  listeners_of E em' = Some [] ∧
  _trace em' = _trace em ∧
  (∀ E', E' ≠ E → listeners_of E' em' = listeners_of E' em) ∧
  (E = "*" → _eventListeners em' = _eventListeners em) ∧
  (E ≠ "*" → _generalListeners em' = _generalListeners em).
Proof.
  intros em'. subst em'.
  change (removeAllListeners E em) with (store_listeners E [] em).
  split; [apply listeners_of_store_eq|].
  split; [apply trace_store|].
  split; [intros E' Hne; by apply listeners_of_store_ne|].
  unfold store_listeners.
  split; intros HE; destruct (decide (E = "*")); done.
Qed.

(** ** Adding listeners, and adding then removing *)

Lemma addEventListener_store (E : string) (L : Func) (em : EventEmitter) :
  addEventListener E L em =
  store_listeners E (default [] (listeners_of E em) ++ [L]) em.
Proof.
  unfold addEventListener, store_listeners, listeners_of.
  destruct (decide (E = "*")); [done|].
  by destruct (_eventListeners em !! E).
Qed.

Lemma store_listeners_twice (E : string) (l l' : list Func)
    (em : EventEmitter) :
  store_listeners E l (store_listeners E l' em) = store_listeners E l em.
Proof.
  unfold store_listeners, set_generalListeners, set_eventListeners.
  destruct (decide (E = "*")); simpl; [done|]. by rewrite insert_insert_eq.
Qed.

Lemma store_listeners_same (E : string) (l : list Func)
    (em : EventEmitter) :
  listeners_of E em = Some l → store_listeners E l em = em.
Proof.
  destruct em as [m g t].
  unfold listeners_of, store_listeners, set_generalListeners,
    set_eventListeners.
  destruct (decide (E = "*")); simpl.
  - by intros [= ->].
  - intros H. by rewrite insert_id.
Qed.

Lemma removeAllListeners_store (E : string) (em : EventEmitter) :
  removeAllListeners E em = store_listeners E [] em.
Proof. reflexivity. Qed.

Lemma lastIndexOf_snoc (l : list Func) (L : Func) :
  lastIndexOf (l ++ [L]) L = Z.of_nat (length l).
Proof.
  unfold lastIndexOf. rewrite length_app, Nat.add_1_r. simpl.
  rewrite list_lookup_middle by done. by rewrite decide_True.
Qed.

Lemma lastIndexOf_nil (L : Func) : lastIndexOf [] L = (-1)%Z.
Proof. reflexivity. Qed.

Lemma registrations_app (f : Func) (l1 l2 : list Func) :
  registrations f (l1 ++ l2) = registrations f l1 + registrations f l2.
Proof. unfold registrations. by rewrite filter_app, length_app. Qed.

Lemma registrations_cons (f g : Func) (l : list Func) :
  registrations f (g :: l) =
  (if decide (g = f) then 1 else 0) + registrations f l.
Proof.
  unfold registrations. rewrite filter_cons.
  by destruct (decide (g = f)).
Qed.

Lemma registrations_absent (f : Func) (l : list Func) :
  f ∉ l → registrations f l = 0.
Proof.
  induction l as [|g l IH]; [done|]. intros Hnot.
  rewrite registrations_cons, IH by set_solver.
  rewrite decide_False; [done|]. intros ->. apply Hnot. set_solver.
Qed.

(** X1.  [addEventListener(E, L)] appends [L] to the array it works on, the
    wildcard array for ["*"] and the array of [E] otherwise, which starts
    empty when [E] had none; a listener that is already there is added
    again.  Every other array is left as it was. *)
Theorem addEventListener_appends_to_one_list
    (E : string) (L : Func) (em : EventEmitter) :
  let em' := addEventListener E L em in
  listeners_of E em' = Some (default [] (listeners_of E em) ++ [L]) ∧
  _trace em' = _trace em ∧
  (∀ E', E' ≠ E → listeners_of E' em' = listeners_of E' em).
Proof.
  intros em'. subst em'. rewrite addEventListener_store.
  split; [apply listeners_of_store_eq|].
  split; [apply trace_store|].
  intros E' Hne. by apply listeners_of_store_ne.
Qed.

Lemma remove_after_add_store (E : string) (L : Func) (em : EventEmitter) :
  removeEventListener E L (addEventListener E L em) =
  store_listeners E (default [] (listeners_of E em)) em.
Proof.
  rewrite addEventListener_store. unfold removeEventListener.
  rewrite listeners_of_store_eq, lastIndexOf_snoc.
  rewrite decide_True by lia.
  replace (default [] (listeners_of E em) ++ [L])
    with (default [] (listeners_of E em) ++ L :: []) by done.
  rewrite splice1_middle, app_nil_r. apply store_listeners_twice.
Qed.

Lemma trace_addEventListener (E : string) (L : Func) (em : EventEmitter) :
  _trace (addEventListener E L em) = _trace em.
Proof. rewrite addEventListener_store. apply trace_store. Qed.

Lemma trace_removeEventListener (E : string) (L : Func)
    (em : EventEmitter) :
  _trace (removeEventListener E L em) = _trace em.
Proof.
  unfold removeEventListener. destruct (listeners_of E em); [|done].
  case_decide; [apply trace_store | done].
Qed.

Lemma star_store (E : string) (l : list Func) (em : EventEmitter) :
  _eventListeners (store_listeners E l em) !! "*"
  = _eventListeners em !! "*".
Proof.
  unfold store_listeners. destruct (decide (E = "*")); simpl; [done|].
  by rewrite lookup_insert_ne.
Qed.

Lemma star_removeEventListener (E : string) (L : Func)
    (em : EventEmitter) :
  _eventListeners (removeEventListener E L em) !! "*"
  = _eventListeners em !! "*".
Proof.
  unfold removeEventListener. destruct (listeners_of E em); [|done].
  case_decide; [apply star_store | done].
Qed.

(** X2.  [removeEventListener(E, L)] right after [addEventListener(E, L)]
    gives back the array that [E] had, and the whole emitter when [E] had an
    array.  When [E] had none, the array that [addEventListener] created
    stays, empty. *)
Theorem remove_after_add_restores_the_list
    (E : string) (L : Func) (em : EventEmitter) :
  let em' := removeEventListener E L (addEventListener E L em) in
  listeners_of E em' = Some (default [] (listeners_of E em)) ∧
  (∀ E', E' ≠ E → listeners_of E' em' = listeners_of E' em) ∧
  (is_Some (listeners_of E em) → em' = em) ∧
  (listeners_of E em = None → em' = store_listeners E [] em).
Proof.
  intros em'. subst em'. rewrite remove_after_add_store.
  split; [apply listeners_of_store_eq|].
  split; [intros E' Hne; by apply listeners_of_store_ne|].
  split.
  - intros [l Hl]. rewrite Hl. simpl. by apply store_listeners_same.
  - by intros ->.
Qed.

Lemma listeners_of_remove_ne (E E' : string) (L : Func)
    (em : EventEmitter) :
  E' ≠ E →
  listeners_of E' (removeEventListener E L em) = listeners_of E' em.
Proof.
  intros Hne. unfold removeEventListener.
  destruct (listeners_of E em); [|done].
  case_decide; [by apply listeners_of_store_ne | done].
Qed.

Lemma listeners_of_remove_eq (E : string) (L : Func) (em : EventEmitter)
    (l : list Func) :
  listeners_of E em = Some l →
  ∃ l', listeners_of E (removeEventListener E L em) = Some l' ∧
    ∀ L', registrations L' l' =
          registrations L' l - (if decide (L' = L) then 1 else 0).
Proof.
  intros Hl. unfold removeEventListener. rewrite Hl.
  destruct (lastIndexOf_spec l L)
    as [[Hi Hnot] | (pre & post & -> & Hpost & Hi)].
  - rewrite Hi. rewrite decide_False by (intros H; by apply H).
    exists l. split; [done|]. intros L'.
    destruct (decide (L' = L)) as [->|]; [|lia].
    rewrite registrations_absent by done. lia.
  - rewrite Hi. rewrite decide_True by lia. rewrite splice1_middle.
    exists (pre ++ post). split; [apply listeners_of_store_eq|].
    intros L'. rewrite !registrations_app, registrations_cons.
    destruct (decide (L' = L)) as [->|Hne].
    + rewrite decide_True by done. lia.
    + rewrite decide_False by congruence. lia.
Qed.

(** X3.  On the array of [E], [removeEventListener(E, L)] takes exactly one
    registration of [L] away when there is one, and none of any other
    listener: the array is one shorter when [L] was in it and as long as
    before otherwise. *)
Theorem removeEventListener_takes_one_registration
    (E : string) (L : Func) (em : EventEmitter) (l : list Func) :
  listeners_of E em = Some l →
  ∃ l', listeners_of E (removeEventListener E L em) = Some l' ∧
    length l' = length l - (if decide (L ∈ l) then 1 else 0) ∧
    ∀ L', registrations L' l' =
          registrations L' l - (if decide (L' = L) then 1 else 0).
Proof.
  intros Hl.
  destruct (listeners_of_remove_eq E L em l Hl) as (l' & Hl' & Hregs).
  exists l'. split; [done|]. split; [|done].
  revert Hl'. unfold removeEventListener. rewrite Hl.
  destruct (lastIndexOf_spec l L)
    as [[Hi Hnot] | (pre & post & -> & Hpost & Hi)]; rewrite Hi.
  - rewrite decide_False by (intros H; by apply H).
    rewrite Hl. intros [= <-]. rewrite decide_False by done. lia.
  - rewrite decide_True by lia.
    rewrite splice1_middle, listeners_of_store_eq. intros [= <-].
    rewrite decide_True by set_solver.
    rewrite !length_app. simpl. lia.
Qed.

Lemma regs_under_remove (f : Func) (E' E : string) (L : Func)
    (em : EventEmitter) :
  regs_under f E' (removeEventListener E L em) =
  regs_under f E' em - (if decide (E' = E ∧ f = L) then 1 else 0).
Proof.
  unfold regs_under. destruct (decide (E' = E)) as [->|Hne].
  - destruct (listeners_of E em) as [l|] eqn:Hl.
    + destruct (listeners_of_remove_eq E L em l Hl) as (l' & -> & Hl').
      simpl. rewrite Hl'.
      destruct (decide (f = L)) as [->|].
      * by rewrite decide_True.
      * rewrite decide_False by (intros [_ ?]; done). done.
    + unfold removeEventListener. rewrite Hl, Hl. done.
  - rewrite listeners_of_remove_ne by done.
    rewrite decide_False by (intros [? _]; done). lia.
Qed.

Lemma shrinks_refl (em : EventEmitter) : shrinks em em.
Proof. intros E f. done. Qed.

Lemma shrinks_trans (em1 em2 em3 : EventEmitter) :
  shrinks em1 em2 → shrinks em2 em3 → shrinks em1 em3.
Proof. intros H1 H2 E f. specialize (H1 E f). specialize (H2 E f). lia. Qed.

Lemma shrinks_remove (E : string) (L : Func) (em : EventEmitter) :
  shrinks em (removeEventListener E L em).
Proof. intros E' f. rewrite regs_under_remove. lia. Qed.

Lemma registrations_present (f : Func) (l : list Func) :
  f ∈ l → 1 ≤ registrations f l.
Proof.
  intros Hin. induction Hin as [f l|f g l _ IH];
    rewrite registrations_cons.
  - rewrite decide_True by done. lia.
  - destruct (decide (g = f)); lia.
Qed.

Lemma registrations_positive (f : Func) (l : list Func) :
  1 ≤ registrations f l → f ∈ l.
Proof.
  intros H. destruct (decide (f ∈ l)) as [|Hnot]; [done|].
  rewrite registrations_absent in H by done. lia.
Qed.

(** X4.  [removeAllListeners(E)] forgets what was added to [E] before it,
    doing it twice changes nothing more, and [removeEventListener(E, L)]
    after it finds nothing to remove. *)
Theorem removeAllListeners_absorbs
    (E : string) (L : Func) (em : EventEmitter) :
  removeAllListeners E (addEventListener E L em) = removeAllListeners E em ∧
  removeAllListeners E (removeAllListeners E em) = removeAllListeners E em ∧
  removeEventListener E L (removeAllListeners E em)
    = removeAllListeners E em.
Proof.
  rewrite addEventListener_store, !removeAllListeners_store.
  split; [apply store_listeners_twice|].
  split; [apply store_listeners_twice|].
  unfold removeEventListener.
  rewrite listeners_of_store_eq, lastIndexOf_nil.
  by rewrite decide_False by (intros H; by apply H).
Qed.

(** ** The declarations *)

(** C7.  [WorkingState] has the four members [INCOMPLETE], [WORKING],
    [INVALID] and [VALID], and no other; their numbers are 1, 2, 3, 4. *)
Theorem WorkingState_has_four_members :
  (∀ s : WorkingState, s ∈ [INCOMPLETE; WORKING; INVALID; VALID]) ∧
  map WorkingState_value [INCOMPLETE; WORKING; INVALID; VALID]
    = [1; 2; 3; 4]%Z ∧
  (∀ s z, WorkingState_of_value z = Some s ↔ WorkingState_value s = z).
Proof.
  split; [intros []; set_solver|]. split; [done|].
  intros s z. unfold WorkingState_of_value. split.
  - repeat case_decide; intros [= <-]; by subst.
  - intros <-. by destruct s.
Qed.

Section DeclarationFacts.

Context {ValidationError Node number : Type}.

(** C6.  [Events] has the four members ["error"], ["reset-errors"],
    ["state-update"] and ["possible-due-to-wildcard-change"], and no other;
    their types are [ErrorData], with [error] and the optional [node] and
    [index], [ResetData], with the number [at], [WorkingStateData], with
    [state] and [partDone], and [Node]. *)
Theorem Events_has_four_members :
  (∀ k : EventKey,
     k ∈ [Error_; ResetErrors; StateUpdate; PossibleDueToWildcardChange]) ∧
  map event_name [Error_; ResetErrors; StateUpdate;
                  PossibleDueToWildcardChange]
    = ["error"; "reset-errors"; "state-update";
       "possible-due-to-wildcard-change"] ∧
  (∀ s k, event_key_of s = Some k ↔ event_name k = s) ∧
  (@Events ValidationError Node number Error_
     = @ErrorData ValidationError Node number ∧
   @Events ValidationError Node number ResetErrors = @ResetData number ∧
   @Events ValidationError Node number StateUpdate
     = @WorkingStateData number ∧
   @Events ValidationError Node number PossibleDueToWildcardChange = Node) ∧
  (∀ d : @ErrorData ValidationError Node number,
     d = mkErrorData (error d : ValidationError)
           (node d : option (option Node)) (index d : option number)) ∧
  (∀ d : @ResetData number, d = mkResetData (at_ d : number)) ∧
  (∀ d : @WorkingStateData number,
     d = mkWorkingStateData (state d : WorkingState) (partDone d : number)).
Proof.
  split; [intros []; set_solver|]. split; [done|].
  split.
  { intros s k. unfold event_key_of. split.
    - repeat case_decide; intros [= <-]; by subst.
    - intros <-. by destruct k. }
  split; [done|].
  split; [by intros []|]. split; by intros [].
Qed.

End DeclarationFacts.

(** ** The log of a dispatch *)

Section DispatchFacts.

Context {Payload UState : Type}.
Abbreviation World := (@World Payload UState).
Abbreviation LogEvent := (@LogEvent Payload).
Abbreviation Value := (@Value Payload).
Abbreviation Prog := (@Prog Payload UState).
Abbreviation Res := (@Res Payload UState).

Variable code : nat → list Value → Prog.

Implicit Types (w : World) (evs : list LogEvent) (d n : nat).

Lemma fresh_app n evs1 evs2 :
  fresh n evs1 → fresh n evs2 → fresh n (evs1 ++ evs2).
Proof. unfold fresh. intros. by apply Forall_app. Qed.

Lemma fresh_mono n m evs : n ≤ m → fresh m evs → fresh n evs.
Proof.
  unfold fresh. intros Hle H. eapply Forall_impl; [exact H|].
  simpl. intros x Hx d Hd. specialize (Hx d Hd). lia.
Qed.

Lemma direct_calls_app d evs1 evs2 :
  direct_calls d (evs1 ++ evs2) = direct_calls d evs1 ++ direct_calls d evs2.
Proof. unfold direct_calls. apply omap_app. Qed.

Lemma direct_calls_cons d (x : LogEvent) evs :
  direct_calls d (x :: evs) =
  match direct_call d x with
  | Some c => c :: direct_calls d evs
  | None => direct_calls d evs
  end.
Proof. reflexivity. Qed.

Lemma direct_calls_fresh d n evs :
  d < n → fresh n evs → direct_calls d evs = [].
Proof.
  intros Hlt H. induction H as [|x evs Hx _ IH]; [done|].
  rewrite direct_calls_cons, IH.
  destruct x as [| | [d' ph|] f args |]; simpl; try done.
  destruct (decide (d' = d)) as [->|]; [|done].
  specialize (Hx d eq_refl). lia.
Qed.

Lemma halt_free_app d evs1 evs2 :
  halt_free d evs1 → halt_free d evs2 → halt_free d (evs1 ++ evs2).
Proof. unfold halt_free. intros. by apply Forall_app. Qed.

Lemma halt_free_fresh d n evs : d < n → fresh n evs → halt_free d evs.
Proof.
  unfold halt_free, fresh. intros Hlt H.
  eapply Forall_impl; [exact H|]. simpl.
  intros [| | |[d' ph|] f [| |]] Hx; simpl; try done.
  apply bool_decide_eq_false. intros ->.
  specialize (Hx d eq_refl). lia.
Qed.

(** A halting return of activation [d] can only be the last event of a list
    that is otherwise free of them. *)
Lemma halt_is_last d evs pre ph f post :
  (halt_free d evs ∨ ∃ ph', ends_with_halt d ph' evs) →
  evs = pre ++ LReturn (ByEmit d ph) f RFalse :: post →
  post = [].
Proof.
  intros Hshape Hsplit.
  assert (Hh : is_halt d (LReturn (ByEmit d ph) f RFalse : LogEvent) = true)
    by (simpl; by apply bool_decide_eq_true).
  destruct Hshape as [Hfree | (ph' & pre' & f' & E & Hfree)].
  - subst evs. apply Forall_app in Hfree as [_ Hfree].
    apply Forall_cons in Hfree as [Hfree _]. congruence.
  - revert Hsplit. destruct post as [|y post _] using rev_ind; [done|].
    intros Hsplit. exfalso. rewrite Hsplit in E.
    change (pre ++ LReturn (ByEmit d ph) f RFalse :: post ++ [y])
      with (pre ++ (LReturn (ByEmit d ph) f RFalse :: post) ++ [y]) in E.
    rewrite app_assoc in E. apply app_inj_tail in E as [E _].
    subst pre'. apply Forall_app in Hfree as [_ Hfree].
    apply Forall_cons in Hfree as [Hfree _]. congruence.
Qed.

Lemma extends_refl w : extends w w.
Proof.
  split; [done|]. exists []. split; [by rewrite app_nil_r | constructor].
Qed.

Lemma extends_trans w1 w2 w3 : extends w1 w2 → extends w2 w3 → extends w1 w3.
Proof.
  intros [Hn1 (e1 & E1 & F1)] [Hn2 (e2 & E2 & F2)].
  split; [lia|]. exists (e1 ++ e2).
  split; [by rewrite E2, E1, app_assoc|].
  apply fresh_app; [done | by eapply fresh_mono].
Qed.

(** Code that changes neither the log nor the numbering of activations. *)
Lemma extends_silent w w' :
  log w' = log w → ndispatch w' = ndispatch w → extends w w'.
Proof.
  intros El En. split; [lia|]. exists [].
  split; [by rewrite app_nil_r | constructor].
Qed.

Lemma extends_log_unnumbered (x : LogEvent) w :
  event_id x = None → extends w (log_event x w).
Proof.
  intros Hx. split; [done|]. exists [x]. split; [done|].
  constructor; [|constructor]. intros d Hd. congruence.
Qed.

Lemma run_prog_extends (emit : string → Payload → World → Res unit) :
  (∀ e ev w, extends w (world_of (emit e ev w))) →
  ∀ (p : Prog) w, extends w (world_of (run_prog emit p w)).
Proof.
  intros Hemit p.
  induction p as [r | | e l k IH | e l k IH | e l k IH | e k IH
                 | e ev k IH | k IH | s k IH]; intros w; simpl.
  - apply extends_refl.
  - apply extends_refl.
  - eapply extends_trans; [|apply IH]. by apply extends_silent.
  - eapply extends_trans; [|apply IH]. by apply extends_silent.
  - eapply extends_trans; [|apply IH]. by apply extends_silent.
  - eapply extends_trans; [|apply IH]. by apply extends_silent.
  - specialize (Hemit e ev w).
    destruct (emit e ev w) as [[] w'|w']; simpl in *; [|done].
    eapply extends_trans; [exact Hemit | apply IH].
  - apply IH.
  - eapply extends_trans; [|apply IH]. by apply extends_silent.
Qed.

(** One loop of [_emit], run by activation [d] over the copy [ls]. *)
Lemma for_of_spec callf d ph (args : list Value) :
  well_behaved callf →
  ∀ (ls : list Func) w, d < ndispatch w →
  let r := for_of callf (ByEmit d ph) args ls w in
  ndispatch w ≤ ndispatch (world_of r) ∧
  ∃ evs p,
    log (world_of r) = log w ++ evs ∧ fresh d evs ∧
    p `prefix_of` ls ∧
    direct_calls d evs = map (λ l, (ph, l, args)) p ∧
    match r with
    | Ok Continue _ => p = ls ∧ halt_free d evs
    | Ok Halt _ => ends_with_halt d ph evs
    | Thrown _ => halt_free d evs
    end.
Proof.
  intros Hcallf ls. remember (ByEmit d ph) as c eqn:Ec.
  induction ls as [|l rest IH]; intros w Hd; simpl.
  - split; [done|]. exists [], [].
    split; [by rewrite app_nil_r|]. split; [constructor|].
    split; [done|]. split; [done|]. split; [done | constructor].
  - set (wa := log_event (LCall c l args) w).
    destruct (Hcallf l args wa) as [Hn (evs1 & E1 & F1)].
    assert (Hcall : ∀ evs', direct_calls d (LCall c l args :: evs')
                    = (ph, l, args) :: direct_calls d evs').
    { intros evs'. rewrite direct_calls_cons. subst c. simpl.
      by rewrite decide_True. }
    assert (Hf1 : fresh d evs1)
      by (eapply fresh_mono; [|exact F1]; simpl; lia).
    assert (Hd1 : direct_calls d evs1 = [])
      by (eapply direct_calls_fresh; [|exact F1]; simpl; lia).
    assert (Hh1 : halt_free d evs1)
      by (eapply halt_free_fresh; [|exact F1]; simpl; lia).
    assert (Hfc : ∀ evs', fresh d evs' → fresh d (LCall c l args :: evs')).
    { intros evs' H'. constructor; [|done]. subst c. simpl.
      intros d' [= <-]. lia. }
    assert (Hhc : ∀ evs', halt_free d evs' →
                  halt_free d (LCall c l args :: evs'))
      by (intros evs' H'; by constructor).
    destruct (callf l args wa) as [ret w'|w'] eqn:Ecall;
      unfold wa in Hn, E1; simpl in Hn, E1 |- *.
    + assert (Hfr : ∀ evs', fresh d evs' →
                    fresh d (LReturn c l ret :: evs')).
      { intros evs' H'. constructor; [|done]. subst c. simpl.
        intros d' [= <-]. lia. }
      destruct (decide (ret = RFalse)) as [->|Hret]; simpl.
      * split; [lia|].
        exists (LCall c l args :: evs1 ++ [LReturn c l RFalse]), [l].
        split; [by rewrite E1, <- !app_assoc|].
        split; [apply Hfc, fresh_app; [done | apply Hfr; constructor]|].
        split; [by exists rest|].
        split; [by rewrite Hcall, direct_calls_app, Hd1|].
        exists (LCall c l args :: evs1), l.
        split; [by subst c | by apply Hhc].
      * set (wr := log_event (LReturn c l ret) w').
        destruct (IH wr) as [Hn2 (evs2 & p & E2 & F2 & Hp & Hc2 & Hm)];
          [simpl; lia|].
        split; [assert (ndispatch wr = ndispatch w') by done; lia|].
        exists (LCall c l args :: evs1 ++ LReturn c l ret :: evs2),
               (l :: p).
        split.
        { rewrite E2. unfold wr. simpl. rewrite E1.
          by rewrite <- !app_assoc. }
        split; [by apply Hfc, fresh_app; [|apply Hfr]|].
        split; [by apply prefix_cons|].
        split.
        { by rewrite Hcall, direct_calls_app, Hd1, direct_calls_cons, Hc2. }
        assert (Hpre : ∀ evs', halt_free d evs' →
                  halt_free d (LCall c l args :: evs1 ++
                               LReturn c l ret :: evs')).
        { intros evs' H'. apply Hhc, halt_free_app; [done|].
          constructor; [|done]. subst c. simpl. by destruct ret. }
        destruct (for_of callf c args rest wr) as [[|] w2|w2].
        -- destruct Hm as [-> Hm]. split; [done | by apply Hpre].
        -- destruct Hm as (pre & f & -> & Hm).
           exists (LCall c l args :: evs1 ++ LReturn c l ret :: pre), f.
           split; [|by apply Hpre].
           simpl. by rewrite <- app_assoc.
        -- by apply Hpre.
    + split; [lia|].
      exists (LCall c l args :: evs1), [l].
      split; [by rewrite E1, <- app_assoc|].
      split; [by apply Hfc|].
      split; [by exists rest|].
      split; [by rewrite Hcall, Hd1 | by apply Hhc].
Qed.

Lemma ends_with_halt_prepend d ph evs0 evs :
  halt_free d evs0 → ends_with_halt d ph evs →
  ends_with_halt d ph (evs0 ++ evs).
Proof.
  intros H0 (pre & f & -> & Hpre). exists (evs0 ++ pre), f.
  split; [by rewrite app_assoc | by apply halt_free_app].
Qed.

Lemma ends_with_halt_not_free d ph evs :
  ends_with_halt d ph evs → halt_free d evs → False.
Proof.
  intros (pre & f & -> & _) H. apply Forall_app in H as [_ H].
  apply Forall_cons in H as [H _]. simpl in H.
  by rewrite bool_decide_eq_false in H.
Qed.

(** The test [listeners.length > 0] only saves the copy of an empty array. *)
Lemma guarded_for_of callf c (args : list Value) (ls : list Func) w :
  (if decide (0 < length ls) then for_of callf c args ls w
   else Ok Continue w) = for_of callf c args ls w.
Proof.
  destruct (decide (0 < length ls)) as [|Hn]; [done|].
  destruct ls; [done | simpl in Hn; lia].
Qed.

Lemma dispatch_begin_spec e (ev : Payload) w :
  let w0 := dispatch_begin e ev w in
  this w0 = this w ∧ ndispatch w0 = S (ndispatch w) ∧
  ∃ evs0, log w0 = log w ++ evs0 ∧ fresh (ndispatch w) evs0 ∧
    direct_calls (ndispatch w) evs0 = [] ∧ halt_free (ndispatch w) evs0.
Proof.
  unfold dispatch_begin. destruct (_trace (this w)); simpl.
  - split; [done|]. split; [done|].
    exists [LConsole e ev; LDispatch (ndispatch w) e ev].
    split; [by rewrite <- app_assoc|].
    split; [|split; [done | by repeat constructor]].
    repeat constructor; simpl; [done|]. intros d [= <-]. lia.
  - split; [done|]. split; [done|].
    exists [LDispatch (ndispatch w) e ev].
    split; [done|].
    split; [|split; [done | by repeat constructor]].
    repeat constructor; simpl. intros d [= <-]. lia.
Qed.

(** The log of one activation of [_emit]. *)
Lemma emit_with_spec callf e (ev : Payload) w :
  well_behaved callf →
  let d := ndispatch w in
  let rG := general_block callf d e ev (dispatch_begin e ev w) in
  let r := emit_with callf e ev w in
  d < ndispatch (world_of r) ∧
  ∃ evs pG pN,
    log (world_of r) = log w ++ evs ∧ fresh d evs ∧
    pG `prefix_of` _generalListeners (this w) ∧
    direct_calls d evs =
      map (λ l, (General, l, [VStr e; VData ev])) pG ++
      map (λ l, (Named, l, [VData ev])) pN ∧
    (halt_free d evs ∨ ∃ ph, ends_with_halt d ph evs) ∧
    match rG with
    | Ok Continue w1 =>
        let lsN := default [] (_eventListeners (this w1) !! e) in
        pG = _generalListeners (this w) ∧ pN `prefix_of` lsN ∧
        (is_Ok r = true → halt_free d evs → pN = lsN)
    | Ok Halt _ =>
        pN = [] ∧ is_Ok r = true ∧ ends_with_halt d General evs
    | Thrown _ => pN = [] ∧ is_Ok r = false
    end.
Proof.
  intros Hcallf d rG r. subst rG r. unfold emit_with, general_block.
  fold d. rewrite guarded_for_of.
  destruct (dispatch_begin_spec e ev w)
    as (Hthis & Hnd & evs0 & E0 & F0 & D0 & H0).
  fold d in Hnd, F0, D0, H0.
  set (w0 := dispatch_begin e ev w) in *. clearbody w0 d.
  rewrite Hthis.
  destruct (for_of_spec callf d General [VStr e; VData ev] Hcallf
              (_generalListeners (this w)) w0)
    as [HnG (evsG & pG & EG & FG & PG & DG & MG)]; [lia|].
  destruct (for_of callf (ByEmit d General) [VStr e; VData ev]
              (_generalListeners (this w)) w0) as [[|] w1|w1];
    simpl in HnG, EG.
  - destruct MG as [-> HG].
    unfold named_block.
    replace (match _eventListeners (this w1) !! e with
             | Some listeners =>
                 if decide (0 < length listeners)
                 then for_of callf (ByEmit d Named) [VData ev] listeners w1
                 else Ok Continue w1
             | None => Ok Continue w1
             end)
      with (for_of callf (ByEmit d Named) [VData ev]
              (default [] (_eventListeners (this w1) !! e)) w1)
      by (destruct (_eventListeners (this w1) !! e); simpl;
          [by rewrite guarded_for_of | done]).
    destruct (for_of_spec callf d Named [VData ev] Hcallf
                (default [] (_eventListeners (this w1) !! e)) w1)
      as [HnN (evsN & pN & EN & FN & PN & DN & MN)]; [lia|].
    assert (Hlog : ∀ wN : World, log wN = log w1 ++ evsN →
              log wN = log w ++ evs0 ++ evsG ++ evsN)
      by (intros wN ->; by rewrite EG, E0, <- !app_assoc).
    assert (Hfresh : fresh d (evs0 ++ evsG ++ evsN))
      by (by repeat apply fresh_app).
    assert (Hdirect : direct_calls d (evs0 ++ evsG ++ evsN) =
              map (λ l, (General, l, [VStr e; VData ev]))
                (_generalListeners (this w)) ++
              map (λ l, (Named, l, [VData ev])) pN)
      by (by rewrite !direct_calls_app, D0, DG, DN).
    destruct (for_of callf (ByEmit d Named) [VData ev]
                (default [] (_eventListeners (this w1) !! e)) w1)
      as [[|] wN|wN]; simpl in HnN, EN |- *.
    + destruct MN as [-> HN].
      split; [lia|]. eexists _, _, _.
      split; [by apply Hlog|]. split; [done|]. split; [done|].
      split; [done|].
      split; [left; by repeat apply halt_free_app|]. done.
    + split; [lia|]. eexists _, _, _.
      split; [by apply Hlog|]. split; [done|]. split; [done|].
      split; [done|].
      assert (Hend : ends_with_halt d Named (evs0 ++ evsG ++ evsN))
        by (by repeat apply ends_with_halt_prepend).
      split; [right; by exists Named|].
      split; [done|]. split; [done|].
      intros _ Hfree. exfalso. by eapply ends_with_halt_not_free.
    + split; [lia|]. eexists _, _, _.
      split; [by apply Hlog|]. split; [done|]. split; [done|].
      split; [done|].
      split; [left; by repeat apply halt_free_app|].
      split; [done|]. split; [done|]. done.
  - simpl. split; [lia|]. exists (evs0 ++ evsG), pG, [].
    split; [by rewrite EG, E0, <- app_assoc|].
    split; [by apply fresh_app|]. split; [done|].
    split; [by rewrite direct_calls_app, D0, DG, app_nil_r|].
    assert (Hend : ends_with_halt d General (evs0 ++ evsG))
      by (by apply ends_with_halt_prepend).
    split; [right; by exists General|]. done.
  - simpl. split; [lia|]. exists (evs0 ++ evsG), pG, [].
    split; [by rewrite EG, E0, <- app_assoc|].
    split; [by apply fresh_app|]. split; [done|].
    split; [by rewrite direct_calls_app, D0, DG, app_nil_r|].
    split; [left; by apply halt_free_app|]. done.
Qed.

Lemma emit_with_extends callf :
  well_behaved callf →
  ∀ e (ev : Payload) w, extends w (world_of (emit_with callf e ev w)).
Proof.
  intros Hcallf e ev w.
  destruct (emit_with_spec callf e ev w Hcallf)
    as [Hn (evs & _ & _ & E & F & _)].
  split; [lia | by exists evs].
Qed.

(** Calling a function object only appends to the log, and what it appends
    belongs to activations of [_emit] that start during the call. *)
Lemma call_extends fuel : well_behaved (call code fuel).
Proof.
  induction fuel as [|fuel IH]; intros f args w; simpl.
  - apply extends_refl.
  - destruct f as [n|k].
    + apply run_prog_extends. by apply emit_with_extends.
    + destruct (closures w !! k) as [[eventName listener]|];
        [|apply extends_refl].
      set (w1 := upd_this (removeEventListener eventName (Me k)) w).
      set (wc := log_event (LCall (ByWrapper (Me k)) listener args) w1).
      assert (Hwc : extends w wc).
      { eapply extends_trans; [|by apply extends_log_unnumbered].
        by apply extends_silent. }
      specialize (IH listener args wc).
      destruct (call code fuel listener args wc) as [r w2|w2]; simpl in *.
      * eapply extends_trans; [exact Hwc|].
        eapply extends_trans; [exact IH|].
        by apply extends_log_unnumbered.
      * by eapply extends_trans.
Qed.

(** The log of one activation of [_emit(eventName, ev)], started in [w]. *)
Lemma emit_spec fuel e (ev : Payload) w :
  let d := ndispatch w in
  let r := _emit code fuel e ev w in
  let evs := emitted code fuel e ev w in
  log (world_of r) = log w ++ evs ∧
  ∃ pG pN,
    pG `prefix_of` _generalListeners (this w) ∧
    direct_calls d evs =
      map (λ l, (General, l, [VStr e; VData ev])) pG ++
      map (λ l, (Named, l, [VData ev])) pN ∧
    (halt_free d evs ∨ ∃ ph, ends_with_halt d ph evs) ∧
    match general_phase code fuel e ev w with
    | Ok Continue w1 =>
        let lsN := default [] (_eventListeners (this w1) !! e) in
        pG = _generalListeners (this w) ∧ pN `prefix_of` lsN ∧
        (is_Ok r = true → halt_free d evs → pN = lsN)
    | Ok Halt _ =>
        pN = [] ∧ is_Ok r = true ∧ ends_with_halt d General evs
    | Thrown _ => pN = [] ∧ is_Ok r = false
    end.
Proof.
  intros d r evs.
  destruct (emit_with_spec (call code fuel) e ev w (call_extends fuel))
    as [_ (evs' & pG & pN & E & _ & H)].
  fold d in H. fold (_emit code fuel e ev w) in E, H. fold r in E, H.
  assert (Hevs : evs = evs').
  { unfold evs, emitted. fold r. by rewrite E, drop_app_length. }
  rewrite Hevs. split; [done|]. by exists pG, pN.
Qed.

Lemma invocations_map f ph (args : list Value) (p : list Func) :
  length (filter (λ c : Phase * Func * list Value, c.1.2 = f)
            (map (λ l, (ph, l, args)) p)) = registrations f p.
Proof.
  unfold registrations. induction p as [|l p IH]; [done|]. simpl.
  rewrite !filter_cons. simpl.
  destruct (decide (l = f)); simpl; by rewrite IH.
Qed.

Lemma registrations_prefix f (p l : list Func) :
  p `prefix_of` l → registrations f p ≤ registrations f l.
Proof.
  intros [k ->]. unfold registrations. rewrite filter_app, length_app. lia.
Qed.

(** *** A deeper stack changes nothing for a run that returns *)

Lemma for_of_refines callf callf' c (args : list Value) :
  refines callf callf' →
  ∀ (ls : list Func) w fl w',
    for_of callf c args ls w = Ok fl w' →
    for_of callf' c args ls w = Ok fl w'.
Proof.
  intros Href ls. induction ls as [|l rest IH]; intros w fl w'; simpl;
    [done|].
  destruct (callf l args (log_event (LCall c l args) w))
    as [ret w1|w1] eqn:E; [|done].
  rewrite (Href _ _ _ _ _ E).
  destruct (decide (ret = RFalse)); [done | apply IH].
Qed.

Lemma emit_with_refines callf callf' e (ev : Payload) w u w' :
  refines callf callf' →
  emit_with callf e ev w = Ok u w' → emit_with callf' e ev w = Ok u w'.
Proof.
  intros Href. unfold emit_with, general_block, named_block.
  rewrite !guarded_for_of.
  destruct (for_of callf (ByEmit (ndispatch w) General) [VStr e; VData ev]
              (_generalListeners (this (dispatch_begin e ev w)))
              (dispatch_begin e ev w)) as [fl w1|w1] eqn:EG; [|by destruct u].
  rewrite (for_of_refines _ _ _ _ Href _ _ _ _ EG).
  destruct fl; [|done].
  destruct (_eventListeners (this w1) !! e) as [ls|]; [|done].
  rewrite !guarded_for_of.
  destruct (for_of callf (ByEmit (ndispatch w) Named) [VData ev] ls w1)
    as [fl w2|w2] eqn:EN; [|done].
  by rewrite (for_of_refines _ _ _ _ Href _ _ _ _ EN).
Qed.

Lemma run_prog_refines (emit emit' : string → Payload → World → Res unit) :
  (∀ e ev w u w', emit e ev w = Ok u w' → emit' e ev w = Ok u w') →
  ∀ (p : Prog) w r w',
    run_prog emit p w = Ok r w' → run_prog emit' p w = Ok r w'.
Proof.
  intros Href p.
  induction p as [r0 | | e l k IH | e l k IH | e l k IH | e k IH
                 | e ev k IH | k IH | s k IH]; intros w r w'; simpl;
    try done; try apply IH.
  destruct (emit e ev w) as [u w1|w1] eqn:E; [|done].
  rewrite (Href _ _ _ _ _ E). apply IH.
Qed.

Lemma call_S fuel f (args : list Value) w :
  call code (S fuel) f args w =
  match f with
  | User n => run_prog (emit_with (call code fuel)) (code n args) w
  | Me k =>
      match closures w !! k with
      | None => Thrown w
      | Some (eventName, listener) =>
          let w1 := upd_this (removeEventListener eventName (Me k)) w in
          match call code fuel listener args
                  (log_event (LCall (ByWrapper (Me k)) listener args) w1)
          with
          | Ok r w2 =>
              Ok r (log_event (LReturn (ByWrapper (Me k)) listener r) w2)
          | Thrown w2 => Thrown w2
          end
      end
  end.
Proof. reflexivity. Qed.

Lemma call_refines fuel : refines (call code fuel) (call code (S fuel)).
Proof.
  induction fuel as [|fuel IH]; intros f args w r w'; [done|].
  rewrite (call_S (S fuel)), (call_S fuel).
  destruct f as [n|k].
  - apply run_prog_refines. intros e ev w0 u w0'.
    by apply emit_with_refines.
  - destruct (closures w !! k) as [[eventName listener]|]; [|done].
    cbv zeta.
    destruct (call code fuel listener args _) as [r1 w2|w2] eqn:E; [|done].
    by rewrite (IH _ _ _ _ _ E).
Qed.

(** A call of [_emit] that returns with a stack of depth [fuel] returns the
    same with any deeper stack. *)
Lemma emit_fuel_mono fuel fuel' e (ev : Payload) w u w' :
  fuel ≤ fuel' →
  _emit code fuel e ev w = Ok u w' → _emit code fuel' e ev w = Ok u w'.
Proof.
  intros Hle. induction Hle as [|fuel' _ IH]; [done|].
  intros H. specialize (IH H). unfold _emit in *.
  eapply emit_with_refines; [apply call_refines | exact IH].
Qed.

(** *** The runs of the two loops *)

Lemma named_block_for_of callf d e (ev : Payload) w :
  named_block callf d e ev w =
  for_of callf (ByEmit d Named) [VData ev]
    (default [] (_eventListeners (this w) !! e)) w.
Proof.
  unfold named_block. destruct (_eventListeners (this w) !! e); [|done].
  simpl. apply guarded_for_of.
Qed.

Lemma emit_unfold fuel e (ev : Payload) w :
  _emit code fuel e ev w =
  match general_phase code fuel e ev w with
  | Thrown w' => Thrown w'
  | Ok Halt w' => Ok tt w'
  | Ok Continue w1 =>
      finish (for_of (call code fuel) (ByEmit (ndispatch w) Named) [VData ev]
                (default [] (_eventListeners (this w1) !! e)) w1)
  end.
Proof.
  unfold _emit, emit_with, general_phase.
  destruct (general_block (call code fuel) (ndispatch w) e ev
              (dispatch_begin e ev w)) as [[|] w1|w1]; try done.
  by rewrite named_block_for_of.
Qed.

Lemma general_phase_unfold fuel e (ev : Payload) w :
  general_phase code fuel e ev w =
  for_of (call code fuel) (ByEmit (ndispatch w) General)
    [VStr e; VData ev] (_generalListeners (this w)) (dispatch_begin e ev w).
Proof.
  unfold general_phase, general_block. rewrite guarded_for_of.
  by destruct (dispatch_begin_spec e ev w) as [-> _].
Qed.

(** The loop of the source runs as [loop_run] says. *)
Lemma for_of_run callf c (args : list Value) (ls : list Func) w :
  ∃ p s w',
    loop_run callf c args ls w p s w' ∧
    for_of callf c args ls w = outcome s w'.
Proof.
  revert w. induction ls as [|l rest IH]; intros w.
  - exists [], Finished, w. split; [constructor | done].
  - cbn [for_of].
    destruct (callf l args (log_event (LCall c l args) w))
      as [r w1|w1] eqn:E.
    + destruct (decide (r = RFalse)) as [->|Hr].
      * exists [l], (ReturnedFalse l), (log_event (LReturn c l RFalse) w1).
        split; [by apply run_false | done].
      * destruct (IH (log_event (LReturn c l r) w1))
          as (p & s & w' & Hrun & Hfor).
        exists (l :: p), s, w'. split; [by eapply run_next | done].
    + exists [l], (Threw l), w1. split; [by apply run_throw | done].
Qed.

Lemma loop_run_shape callf c (args : list Value) ls w p s w' :
  loop_run callf c args ls w p s w' →
  p `prefix_of` ls ∧ stopped_at s p ls.
Proof.
  induction 1 as [w|l rest w w' _|l rest w w' _
                 |l rest w r w1 p s w' _ _ _ [IHp IHs]].
  - done.
  - split; [by exists rest | done].
  - split; [by exists rest | done].
  - split; [by apply prefix_cons|].
    destruct s; simpl in *.
    + by subst.
    + destruct p; [done | by rewrite last_cons, IHs].
    + destruct p; [done | by rewrite last_cons, IHs].
Qed.

(** A loop that stops on [false] leaves the world that the listener left,
    with the return written to the log. *)
Lemma loop_run_false_world callf c (args : list Value) ls w p f w1 :
  loop_run callf c args ls w p (ReturnedFalse f) w1 →
  ∃ w0 w',
    callf f args (log_event (LCall c f args) w0) = Ok RFalse w' ∧
    w1 = log_event (LReturn c f RFalse) w'.
Proof.
  intros H. remember (ReturnedFalse f) as s eqn:Hs.
  induction H as [w|l rest w w' _|l rest w w' Hcall
                 |l rest w r w2 p s w' _ _ _ IH]; try done.
  - injection Hs as ->. by exists w, w'.
  - by apply IH.
Qed.

Lemma loop_run_log callf d ph (args : list Value) :
  well_behaved callf →
  ∀ ls w p s w',
    d < ndispatch w →
    loop_run callf (ByEmit d ph) args ls w p s w' →
    ndispatch w ≤ ndispatch w' ∧
    ∃ evs, log w' = log w ++ evs ∧
      direct_calls d evs = map (λ l, (ph, l, args)) p.
Proof.
  intros Hcallf ls w p s w' Hd Hrun.
  assert (Hcall : ∀ l (evs' : list LogEvent),
            direct_calls d (LCall (ByEmit d ph) l args :: evs')
            = (ph, l, args) :: direct_calls d evs').
  { intros l evs'. rewrite direct_calls_cons. simpl.
    by rewrite decide_True. }
  assert (Hone : ∀ l (w0 : World) (r : Res RetVal),
            d < ndispatch w0 →
            callf l args (log_event (LCall (ByEmit d ph) l args) w0) = r →
            ndispatch w0 ≤ ndispatch (world_of r) ∧
            ∃ evs1, log (world_of r)
                    = log w0 ++ LCall (ByEmit d ph) l args :: evs1 ∧
              direct_calls d evs1 = []).
  { intros l w0 r Hd0 <-.
    destruct (Hcallf l args (log_event (LCall (ByEmit d ph) l args) w0))
      as [Hn (evs1 & E1 & F1)]. simpl in Hn, E1, F1.
    split; [done|]. exists evs1.
    split; [by rewrite E1, <- app_assoc|].
    by eapply direct_calls_fresh. }
  induction Hrun as [w|l rest w w' Hc|l rest w w' Hc
                    |l rest w r w1 p s w' Hc Hr _ IH].
  - split; [done|]. exists []. by rewrite app_nil_r.
  - destruct (Hone l w _ Hd Hc) as [Hn (evs1 & E1 & D1)]. simpl in Hn, E1.
    split; [done|]. exists (LCall (ByEmit d ph) l args :: evs1).
    split; [done|]. by rewrite Hcall, D1.
  - destruct (Hone l w _ Hd Hc) as [Hn (evs1 & E1 & D1)]. simpl in Hn, E1.
    split; [done|].
    exists (LCall (ByEmit d ph) l args :: evs1 ++
            [LReturn (ByEmit d ph) l RFalse]).
    split; [simpl; by rewrite E1, <- app_assoc|].
    by rewrite Hcall, direct_calls_app, D1.
  - destruct (Hone l w _ Hd Hc) as [Hn (evs1 & E1 & D1)]. simpl in Hn, E1.
    destruct IH as [Hn2 (evs2 & E2 & D2)]; [simpl; lia|].
    simpl in Hn2, E2. split; [lia|].
    exists (LCall (ByEmit d ph) l args :: evs1 ++
            LReturn (ByEmit d ph) l r :: evs2).
    split; [rewrite E2, E1; simpl; by rewrite <- !app_assoc|].
    by rewrite Hcall, direct_calls_app, D1, direct_calls_cons, D2.
Qed.

(** One activation of [_emit] is the run of its first loop over the wildcard
    array and, when that loop finishes, the run of its second loop over the
    array of the event as the first loop left it. *)
Lemma emit_runs fuel e (ev : Payload) w :
  let d := ndispatch w in
  let evs := emitted code fuel e ev w in
  ∃ pG s1 w1,
    loop_run (call code fuel) (ByEmit d General) [VStr e; VData ev]
      (_generalListeners (this w)) (dispatch_begin e ev w) pG s1 w1 ∧
    general_phase code fuel e ev w = outcome s1 w1 ∧
    match s1 with
    | Finished =>
        ∃ pN s2 w2,
          loop_run (call code fuel) (ByEmit d Named) [VData ev]
            (default [] (_eventListeners (this w1) !! e)) w1 pN s2 w2 ∧
          _emit code fuel e ev w = finish (outcome s2 w2) ∧
          direct_calls d evs =
            map (λ l, (General, l, [VStr e; VData ev])) pG ++
            map (λ l, (Named, l, [VData ev])) pN
    | _ =>
        _emit code fuel e ev w = finish (outcome s1 w1) ∧
        direct_calls d evs =
          map (λ l, (General, l, [VStr e; VData ev])) pG
    end.
Proof.
  intros d evs. subst d.
  destruct (for_of_run (call code fuel) (ByEmit (ndispatch w) General)
              [VStr e; VData ev] (_generalListeners (this w))
              (dispatch_begin e ev w)) as (pG & s1 & w1 & Hrun1 & Hfor1).
  exists pG, s1, w1. split; [done|].
  assert (HG : general_phase code fuel e ev w = outcome s1 w1)
    by (by rewrite general_phase_unfold).
  split; [done|].
  destruct (dispatch_begin_spec e ev w)
    as (_ & Hnd & evs0 & E0 & _ & D0 & _).
  assert (Hd0 : ndispatch w < ndispatch (dispatch_begin e ev w))
    by (rewrite Hnd; lia).
  destruct (loop_run_log (call code fuel) (ndispatch w) General
              [VStr e; VData ev] (call_extends fuel) _ _ _ _ _ Hd0 Hrun1)
    as [Hn1 (evs1 & E1 & D1)].
  assert (Hcalls : ∀ (r : Res unit) (evs' : list LogEvent),
            _emit code fuel e ev w = r →
            log (world_of r) = log w ++ evs' →
            direct_calls (ndispatch w) evs = direct_calls (ndispatch w) evs').
  { intros r evs' Hemit Hlog. unfold evs, emitted. rewrite Hemit.
    by rewrite Hlog, drop_app_length. }
  assert (Hstop : ∀ r, finish (outcome s1 w1) = r →
            s1 ≠ Finished →
            _emit code fuel e ev w = r ∧ world_of r = w1).
  { intros r <- Hs. rewrite emit_unfold, HG. by destruct s1. }
  assert (Hdirect1 : direct_calls (ndispatch w) (evs0 ++ evs1) =
            map (λ l, (General, l, [VStr e; VData ev])) pG)
    by (by rewrite direct_calls_app, D0, D1).
  destruct s1 as [|f|f].
  - destruct (for_of_run (call code fuel) (ByEmit (ndispatch w) Named) [VData ev]
                (default [] (_eventListeners (this w1) !! e)) w1)
      as (pN & s2 & w2 & Hrun2 & Hfor2).
    exists pN, s2, w2. split; [done|].
    assert (Hemit : _emit code fuel e ev w = finish (outcome s2 w2))
      by (rewrite emit_unfold, HG; simpl; by rewrite Hfor2).
    split; [done|].
    assert (Hd1 : ndispatch w < ndispatch w1) by lia.
    destruct (loop_run_log (call code fuel) (ndispatch w) Named [VData ev]
                (call_extends fuel) _ _ _ _ _ Hd1 Hrun2)
      as [_ (evs2 & E2 & D2)].
    rewrite (Hcalls _ (evs0 ++ evs1 ++ evs2) Hemit).
    + by rewrite !direct_calls_app, D0, D1, D2.
    + replace (world_of (finish (outcome s2 w2))) with w2
        by (by destruct s2).
      by rewrite E2, E1, E0, <- !app_assoc.
  - destruct (Hstop _ eq_refl ltac:(done)) as [Hemit Hw].
    split; [done|].
    rewrite (Hcalls _ (evs0 ++ evs1) Hemit); [done|].
    by rewrite Hw, E1, E0, <- app_assoc.
  - destruct (Hstop _ eq_refl ltac:(done)) as [Hemit Hw].
    split; [done|].
    rewrite (Hcalls _ (evs0 ++ evs1) Hemit); [done|].
    by rewrite Hw, E1, E0, <- app_assoc.
Qed.

(** *** C1 *)


(** *** C2 *)

(** C2.  When a listener hands [false] back to an activation of [_emit],
    that is the last thing the activation does: nothing is called after it,
    and [_emit] returns normally, in the world that listener left.  Nothing
    else stops a loop short of an exception: an activation that returns, and
    to which no listener handed [false] back, has called every listener of
    both copies, whatever was handed back to other activations, nested in it
    or before it. *)
Theorem halt_ends_its_own_dispatch_only fuel e (ev : Payload) w :
  let d := ndispatch w in
  let r := _emit code fuel e ev w in
  let evs := emitted code fuel e ev w in
  (∀ pre ph f post,
     evs = pre ++ LReturn (ByEmit d ph) f RFalse :: post → post = []) ∧
  (∀ c (args : list Value) l rest w0 w',
     call code fuel l args (log_event (LCall c l args) w0) = Ok RFalse w' →
     for_of (call code fuel) c args (l :: rest) w0
       = Ok Halt (log_event (LReturn c l RFalse) w')) ∧
  (is_Ok r = true → halt_free d evs →
   ∃ w1, general_phase code fuel e ev w = Ok Continue w1 ∧
     direct_calls d evs =
       map (λ l, (General, l, [VStr e; VData ev]))
         (_generalListeners (this w)) ++
       map (λ l, (Named, l, [VData ev]))
         (default [] (_eventListeners (this w1) !! e))) ∧
  (∃ pG s1 w1,
     loop_run (call code fuel) (ByEmit d General) [VStr e; VData ev]
       (_generalListeners (this w)) (dispatch_begin e ev w) pG s1 w1 ∧
     stopped_at s1 pG (_generalListeners (this w)) ∧
     match s1 with
     | ReturnedFalse f =>
         r = Ok tt w1 ∧
         direct_calls d evs =
           map (λ l, (General, l, [VStr e; VData ev])) pG ∧
         ∃ w0 w',
           call code fuel f [VStr e; VData ev]
             (log_event (LCall (ByEmit d General) f [VStr e; VData ev]) w0)
             = Ok RFalse w' ∧
           w1 = log_event (LReturn (ByEmit d General) f RFalse) w'
     | Threw _ => r = Thrown w1
     | Finished =>
         let copy := default [] (_eventListeners (this w1) !! e) in
         ∃ pN s2 w2,
           loop_run (call code fuel) (ByEmit d Named) [VData ev]
             copy w1 pN s2 w2 ∧
           stopped_at s2 pN copy ∧
           direct_calls d evs =
             map (λ l, (General, l, [VStr e; VData ev])) pG ++
             map (λ l, (Named, l, [VData ev])) pN ∧
           match s2 with
           | ReturnedFalse f =>
               r = Ok tt w2 ∧
               ∃ w0 w',
                 call code fuel f [VData ev]
                   (log_event (LCall (ByEmit d Named) f [VData ev]) w0)
                   = Ok RFalse w' ∧
                 w2 = log_event (LReturn (ByEmit d Named) f RFalse) w'
           | Threw _ => r = Thrown w2
           | Finished => r = Ok tt w2
           end
     end).
Proof.
  intros d r evs.
  destruct (emit_spec fuel e ev w) as [_ (pG & pN & HG & Hd & Hh & Hm)].
  fold d r evs in Hd, Hh, Hm.
  split; [|split; [|split]].
  - intros pre ph f post Hsplit. by eapply halt_is_last.
  - intros c args l rest w0 w' Hcall. simpl. by rewrite Hcall.
  - intros Hok Hfree.
    destruct (general_phase code fuel e ev w) as [[|] w1|w1].
    + exists w1. split; [done|].
      destruct Hm as (-> & _ & Hfull). by rewrite Hd, (Hfull Hok Hfree).
    + destruct Hm as (_ & _ & Hend).
      exfalso. by eapply ends_with_halt_not_free.
    + destruct Hm as [_ Hno]. congruence.
  - clear pG pN HG Hd Hh Hm.
    destruct (emit_runs fuel e ev w) as (pG & s1 & w1 & Hrun1 & _ & Hm).
    fold d r evs in Hrun1, Hm.
    destruct (loop_run_shape _ _ _ _ _ _ _ _ Hrun1) as [_ Hs1].
    exists pG, s1, w1. split; [done|]. split; [done|].
    destruct s1 as [|f|f].
    + destruct Hm as (pN & s2 & w2 & Hrun2 & Hemit & Hd).
      destruct (loop_run_shape _ _ _ _ _ _ _ _ Hrun2) as [_ Hs2].
      exists pN, s2, w2. split; [done|]. split; [done|]. split; [done|].
      destruct s2 as [|f|f]; try done.
      split; [done|]. by eapply loop_run_false_world.
    + destruct Hm as [Hemit Hd]. split; [done|]. split; [done|].
      by eapply loop_run_false_world.
    + by destruct Hm as [Hemit _].
Qed.

(** *** C3 *)

(** C3 (as amended).  An activation of [_emit] calls a listener at most as
    many times as the listener is registered in the two arrays that the
    activation copies: the wildcard array as it is when [_emit] is called,
    and the array of the event as it is when the wildcard listeners have all
    returned (there is no second copy when a wildcard listener returns
    [false] or throws).  A listener registered at most once in those copies
    is therefore called at most once, and not again after it has removed
    itself. *)
Theorem calls_bounded_by_registrations fuel e (ev : Payload) w (L : Func) :
  let d := ndispatch w in
  let evs := emitted code fuel e ev w in
  invocations d L evs ≤
    registrations L (_generalListeners (this w)) +
    match general_phase code fuel e ev w with
    | Ok Continue w1 =>
        registrations L (default [] (_eventListeners (this w1) !! e))
    | _ => 0
    end.
Proof.
  intros d evs.
  destruct (emit_spec fuel e ev w) as [_ (pG & pN & HG & Hd & _ & Hm)].
  fold d evs in Hd. unfold invocations. rewrite Hd.
  rewrite filter_app, length_app, !invocations_map.
  apply registrations_prefix with (f := L) in HG.
  destruct (general_phase code fuel e ev w) as [[|] w1|w1].
  - destruct Hm as (_ & HN & _).
    apply registrations_prefix with (f := L) in HN. lia.
  - destruct Hm as [-> _]. unfold registrations at 2. simpl. lia.
  - destruct Hm as [-> _]. unfold registrations at 2. simpl. lia.
Qed.

(** *** C5 *)

(** C5 (as amended).  An activation of [_emit(eventName, ev)] calls the
    wildcard listeners of the array as it is when [_emit] is called, one
    after the other in the order of the array, each with the two arguments
    [(eventName, ev)]: all of them, unless the loop stops at one that
    returns [false] or at one that throws, which is then the last one
    called. *)
Theorem wildcard_listeners_get_name_and_payload fuel e (ev : Payload) w :
  let d := ndispatch w in
  let evs := emitted code fuel e ev w in
  ∃ pG s1 w1,
    loop_run (call code fuel) (ByEmit d General) [VStr e; VData ev]
      (_generalListeners (this w)) (dispatch_begin e ev w) pG s1 w1 ∧
    general_phase code fuel e ev w = outcome s1 w1 ∧
    pG `prefix_of` _generalListeners (this w) ∧
    stopped_at s1 pG (_generalListeners (this w)) ∧
    ∃ pN,
      direct_calls d evs =
        map (λ l, (General, l, [VStr e; VData ev])) pG ++
        map (λ l, (Named, l, [VData ev])) pN.
Proof.
  intros d evs.
  destruct (emit_runs fuel e ev w) as (pG & s1 & w1 & Hrun1 & HG & Hm).
  fold d evs in Hrun1, Hm.
  destruct (loop_run_shape _ _ _ _ _ _ _ _ Hrun1) as [HpG Hs1].
  exists pG, s1, w1. split; [done|]. split; [done|].
  split; [done|]. split; [done|].
  destruct s1 as [|f|f].
  - destruct Hm as (pN & _ & _ & _ & _ & Hd). by exists pN.
  - destruct Hm as [_ Hd]. exists []. by rewrite Hd, app_nil_r.
  - destruct Hm as [_ Hd]. exists []. by rewrite Hd, app_nil_r.
Qed.

(** *** C10 *)

(** C10.  A call of the stub [me] made by [addOneTimeEventListener(E, L)]
    removes [me] from [E], calls [L] with the same arguments and returns
    what [L] returns.  So when [L] returns [false], the loop of [_emit] that
    called the stub executes [return]: the listeners after the stub are not
    called, as for any listener that returns [false]. *)
Theorem one_time_stub_returns_what_the_listener_returns
    fuel k E L (args : list Value) w :
  closures w !! k = Some (E, L) →
  let w1 := log_event (LCall (ByWrapper (Me k)) L args)
              (upd_this (removeEventListener E (Me k)) w) in
  call code (S fuel) (Me k) args w =
    match call code fuel L args w1 with
    | Ok r w2 => Ok r (log_event (LReturn (ByWrapper (Me k)) L r) w2)
    | Thrown w2 => Thrown w2
    end ∧
  ∀ w2, call code fuel L args w1 = Ok RFalse w2 →
    ∀ c rest w0, w = log_event (LCall c (Me k) args) w0 →
      for_of (call code (S fuel)) c args (Me k :: rest) w0 =
        Ok Halt (log_event (LReturn c (Me k) RFalse)
                   (log_event (LReturn (ByWrapper (Me k)) L RFalse) w2)).
Proof.
  intros Hk w1.
  assert (Hcall : call code (S fuel) (Me k) args w =
            match call code fuel L args w1 with
            | Ok r w2 => Ok r (log_event (LReturn (ByWrapper (Me k)) L r) w2)
            | Thrown w2 => Thrown w2
            end)
    by (simpl; by rewrite Hk).
  split; [exact Hcall|].
  intros w2 HL c rest w0 Hw.
  cbn [for_of]. rewrite <- Hw, Hcall, HL. done.
Qed.

(** *** Every run is a sequence of steps *)

Lemma run_prog_steps (emit : string → Payload → World → Res unit) :
  (∀ e ev w, rtc prim_step w (world_of (emit e ev w))) →
  ∀ (p : Prog) w, rtc prim_step w (world_of (run_prog emit p w)).
Proof.
  intros Hemit p.
  induction p as [r | | e l k IH | e l k IH | e l k IH | e k IH
                 | e ev k IH | k IH | s k IH]; intros w; simpl.
  - done.
  - done.
  - eapply rtc_l; [apply step_add | apply IH].
  - eapply rtc_l; [apply (step_alloc e l)|].
    eapply rtc_l; [apply step_add | apply IH].
  - eapply rtc_l; [apply step_remove | apply IH].
  - eapply rtc_l; [apply step_remove_all | apply IH].
  - specialize (Hemit e ev w).
    destruct (emit e ev w) as [[] w'|w']; simpl in *; [|done].
    etrans; [exact Hemit | apply IH].
  - apply IH.
  - eapply rtc_l; [apply step_user | apply IH].
Qed.

Lemma for_of_steps callf c (args : list Value) :
  (∀ f a w, rtc prim_step w (world_of (callf f a w))) →
  ∀ (ls : list Func) w,
    rtc prim_step w (world_of (for_of callf c args ls w)).
Proof.
  intros Hcallf ls. induction ls as [|l rest IH]; intros w; simpl; [done|].
  eapply rtc_l; [apply (step_call c l args)|].
  specialize (Hcallf l args (log_event (LCall c l args) w)).
  destruct (callf l args (log_event (LCall c l args) w)) as [ret w'|w'];
    simpl in *; [|done].
  etrans; [exact Hcallf|].
  eapply rtc_l; [apply (step_return c l ret)|].
  destruct (decide (ret = RFalse)); [done | apply IH].
Qed.

Lemma dispatch_begin_steps e (ev : Payload) w :
  rtc prim_step w (dispatch_begin e ev w).
Proof.
  unfold dispatch_begin. destruct (_trace (this w)) eqn:Ht.
  - eapply rtc_l; [by apply (step_console e ev)|].
    apply rtc_once.
    exact (step_dispatch e ev (log_event (LConsole e ev) w)).
  - apply rtc_once. exact (step_dispatch e ev w).
Qed.

Lemma general_block_steps callf d e (ev : Payload) w :
  (∀ f a w, rtc prim_step w (world_of (callf f a w))) →
  rtc prim_step w (world_of (general_block callf d e ev w)).
Proof.
  intros Hcallf. unfold general_block. rewrite guarded_for_of.
  by apply for_of_steps.
Qed.

Lemma emit_with_steps callf :
  (∀ f a w, rtc prim_step w (world_of (callf f a w))) →
  ∀ e (ev : Payload) w, rtc prim_step w (world_of (emit_with callf e ev w)).
Proof.
  intros Hcallf e ev w. unfold emit_with.
  pose proof (general_block_steps callf (ndispatch w) e ev
                (dispatch_begin e ev w) Hcallf) as HG.
  destruct (general_block callf (ndispatch w) e ev (dispatch_begin e ev w))
    as [[|] w1|w1]; simpl in HG |- *.
  - assert (HN : rtc prim_step w1
             (world_of (named_block callf (ndispatch w) e ev w1))).
    { unfold named_block.
      destruct (_eventListeners (this w1) !! e); [|done].
      rewrite guarded_for_of. by apply for_of_steps. }
    destruct (named_block callf (ndispatch w) e ev w1) as [fl w2|w2];
      simpl in HN |- *.
    + etrans; [apply dispatch_begin_steps|]. by etrans.
    + etrans; [apply dispatch_begin_steps|]. by etrans.
  - etrans; [apply dispatch_begin_steps | done].
  - etrans; [apply dispatch_begin_steps | done].
Qed.

(** Whatever a call does to the world, it does by the steps of
    [prim_step]. *)
Lemma call_steps fuel f (args : list Value) w :
  rtc prim_step w (world_of (call code fuel f args w)).
Proof.
  revert f args w. induction fuel as [|fuel IH]; intros f args w; [done|].
  rewrite call_S. destruct f as [n|k].
  - apply run_prog_steps. by apply emit_with_steps.
  - destruct (closures w !! k) as [[eventName listener]|]; [|done].
    cbv zeta.
    eapply rtc_l; [apply (step_remove eventName (Me k))|].
    eapply rtc_l; [apply (step_call (ByWrapper (Me k)) listener args)|].
    specialize (IH listener args
      (log_event (LCall (ByWrapper (Me k)) listener args)
         (upd_this (removeEventListener eventName (Me k)) w))).
    destruct (call code fuel listener args _) as [r w2|w2];
      simpl in IH |- *; [|done].
    etrans; [exact IH|]. apply rtc_once, step_return.
Qed.

Lemma emit_steps fuel e (ev : Payload) w :
  rtc prim_step w (world_of (_emit code fuel e ev w)).
Proof. apply emit_with_steps. intros f a w0. apply call_steps. Qed.

Lemma general_phase_steps fuel e (ev : Payload) w :
  rtc prim_step w (world_of (general_phase code fuel e ev w)).
Proof.
  unfold general_phase. etrans; [apply dispatch_begin_steps|].
  apply general_block_steps. intros f a w0. apply call_steps.
Qed.

(** Steps never write [_trace], and print nothing while it is unset. *)
Lemma steps_trace w w' :
  rtc prim_step w w' →
  _trace (this w') = _trace (this w) ∧
  (_trace (this w) = false →
   ∃ evs, log w' = log w ++ evs ∧ Forall (λ x, is_console x = false) evs).
Proof.
  induction 1 as [w|w w1 w' Hstep _ [IHt IHl]].
  - split; [done|]. intros _. exists []. by rewrite app_nil_r.
  - assert (Ht : _trace (this w1) = _trace (this w)).
    { destruct Hstep; simpl; try done.
      - apply trace_addEventListener.
      - apply trace_removeEventListener.
      - apply trace_store. }
    split; [congruence|]. intros Hoff.
    destruct IHl as (evs & E & Hevs); [congruence|].
    assert (H1 : ∃ evs1, log w1 = log w ++ evs1 ∧
              Forall (λ x, is_console x = false) evs1).
    { destruct Hstep; simpl;
        try (exists []; by rewrite app_nil_r);
        try (eexists [_]; split; [done | by repeat constructor]).
      congruence. }
    destruct H1 as (evs1 & E1 & Hevs1).
    exists (evs1 ++ evs). split; [by rewrite E, E1, app_assoc|].
    by apply Forall_app.
Qed.

(** Steps never store an array under the key ["*"]. *)
Lemma steps_star w w' :
  rtc prim_step w w' →
  _eventListeners (this w') !! "*" = _eventListeners (this w) !! "*".
Proof.
  induction 1 as [w|w w1 w' Hstep _ IH]; [done|].
  rewrite IH. destruct Hstep; simpl; try done.
  - rewrite addEventListener_store. apply star_store.
  - apply star_removeEventListener.
  - apply star_store.
Qed.

(** X5.  Dispatching never writes [_trace], whatever the listeners do with
    the emitter's methods; an emitter whose [_trace] is unset, as the
    constructor leaves it, prints nothing during a dispatch. *)
Theorem emit_never_writes_trace fuel e (ev : Payload) w :
  let w' := world_of (_emit code fuel e ev w) in
  _trace (this w') = _trace (this w) ∧
  (_trace (this w) = false →
   Forall (λ x, is_console x = false) (emitted code fuel e ev w)).
Proof.
  intros w'. destruct (steps_trace w w' (emit_steps fuel e ev w)) as [Ht Hl].
  split; [done|]. intros Hoff.
  destruct (Hl Hoff) as (evs & E & Hevs).
  unfold emitted. fold w'. by rewrite E, drop_app_length.
Qed.

(** X6.  No method stores an array under the name ["*"]: if the emitter
    has none, as after the constructor, it has none after any dispatch, and
    [_emit("*", ev)] calls wildcard listeners only. *)
Theorem star_is_never_a_name fuel e (ev : Payload) w :
  _eventListeners (this w) !! "*" = None →
  _eventListeners (this (world_of (_emit code fuel e ev w))) !! "*" = None ∧
  (e = "*" →
   ∃ pG, pG `prefix_of` _generalListeners (this w) ∧
     direct_calls (ndispatch w) (emitted code fuel e ev w) =
       map (λ l, (General, l, [VStr "*"; VData ev])) pG).
Proof.
  intros Hstar. split.
  - by rewrite (steps_star _ _ (emit_steps fuel e ev w)).
  - intros ->.
    destruct (emit_spec fuel "*" ev w) as [_ (pG & pN & HG & Hd & _ & Hm)].
    exists pG. split; [done|]. rewrite Hd.
    pose proof (steps_star _ _ (general_phase_steps fuel "*" ev w)) as Hs.
    assert (HpN : pN = []).
    { destruct (general_phase code fuel "*" ev w) as [[|] w1|w1];
        simpl in Hs.
      - destruct Hm as (_ & HN & _). rewrite Hs, Hstar in HN. simpl in HN.
        by apply prefix_nil_inv in HN.
      - by destruct Hm as [-> _].
      - by destruct Hm as [-> _]. }
    rewrite HpN. simpl. by rewrite app_nil_r.
Qed.

(** *** A wildcard listener that halts, and listeners that only return *)

(** X8.  A wildcard listener that returns [false] ends [_emit] before the
    second loop: [_emit] returns in the world that listener left, and no
    listener registered by name is called. *)
Theorem wildcard_false_skips_the_named_listeners
    fuel e (ev : Payload) w w' :
  general_phase code fuel e ev w = Ok Halt w' →
  _emit code fuel e ev w = Ok tt w' ∧
  ∃ pG, pG `prefix_of` _generalListeners (this w) ∧
    direct_calls (ndispatch w) (emitted code fuel e ev w) =
      map (λ l, (General, l, [VStr e; VData ev])) pG ∧
    ends_with_halt (ndispatch w) General (emitted code fuel e ev w).
Proof.
  intros HG. split; [by rewrite emit_unfold, HG|].
  destruct (emit_spec fuel e ev w) as [_ (pG & pN & HpG & Hd & _ & Hm)].
  rewrite HG in Hm. destruct Hm as (-> & _ & Hend).
  exists pG. split; [done|]. split; [|done].
  rewrite Hd. simpl. by rewrite app_nil_r.
Qed.

Lemma direct_calls_loop_events d ph (args : list Value) rets
    (p : list Func) :
  direct_calls d (loop_events (ByEmit d ph) args rets p) =
  map (λ l, (ph, l, args)) p.
Proof.
  induction p as [|l p IH]; [done|].
  unfold loop_events in *. cbn [flat_map app].
  rewrite !direct_calls_cons. cbn [direct_call].
  rewrite decide_True by done. by rewrite IH.
Qed.

(** A loop over listeners that only return. *)
Lemma for_of_returning (ret : nat → list Value → RetVal) fuel c
    (args : list Value) :
  (∀ n a, code n a = Return (ret n a)) →
  ∀ (ls : list Func) w,
    Forall (λ f, is_user f = true) ls →
    ∃ w',
      for_of (call code (S fuel)) c args ls w =
        Ok (reached (returns_of ret args) ls).2 w' ∧
      this w' = this w ∧ closures w' = closures w ∧ user w' = user w ∧
      log w' = log w ++
        loop_events c args (returns_of ret args)
          (reached (returns_of ret args) ls).1.
Proof.
  intros Hcode ls. induction ls as [|l rest IH]; intros w Hls.
  - exists w. simpl. by rewrite app_nil_r.
  - apply Forall_cons in Hls as [Hl Hrest].
    destruct l as [n|k]; [|done].
    cbn [for_of]. rewrite call_S, Hcode. cbn [run_prog reached returns_of].
    destruct (decide (ret n args = RFalse)) as [Hf|Hf].
    + eexists. split; [done|].
      split; [done|]. split; [done|]. split; [done|].
      unfold loop_events. simpl. by rewrite <- app_assoc.
    + destruct (IH (log_event (LReturn c (User n) (ret n args))
                     (log_event (LCall c (User n) args) w)) Hrest)
        as (w' & Hrun & Ht & Hc & Hu & Hlog).
      exists w'.
      destruct (reached (returns_of ret args) rest) as [p fl] eqn:Hr.
      simpl in Hrun, Hlog |- *.
      split; [done|]. split; [done|]. split; [done|]. split; [done|].
      rewrite Hlog. unfold loop_events. simpl.
      by rewrite <- !app_assoc.
Qed.

(** X9.  When the client's listeners only return a value and no one-time
    stub is registered, one level of stack is enough: [_emit] returns,
    leaves the emitter as it was, and has called the wildcard listeners in
    order up to the first that returns [false], then, if none did, the
    listeners of the event in order up to the first that returns [false]. *)
Theorem emit_of_listeners_that_only_return
    (ret : nat → list Value → RetVal) fuel e (ev : Payload) w :
  (∀ n a, code n a = Return (ret n a)) →
  Forall (λ f, is_user f = true) (_generalListeners (this w)) →
  Forall (λ f, is_user f = true)
    (default [] (_eventListeners (this w) !! e)) →
  let rG := reached (returns_of ret [VStr e; VData ev])
              (_generalListeners (this w)) in
  let rN := reached (returns_of ret [VData ev])
              (default [] (_eventListeners (this w) !! e)) in
  ∃ w', _emit code (S fuel) e ev w = Ok tt w' ∧
    this w' = this w ∧ closures w' = closures w ∧ user w' = user w ∧
    direct_calls (ndispatch w) (emitted code (S fuel) e ev w) =
      map (λ l, (General, l, [VStr e; VData ev])) rG.1 ++
      match rG.2 with
      | Continue => map (λ l, (Named, l, [VData ev])) rN.1
      | Halt => []
      end.
Proof.
  intros Hcode HG HN rG rN.
  destruct (dispatch_begin_spec e ev w)
    as (Hthis & _ & evs0 & E0 & _ & D0 & _).
  assert (Hc0 : closures (dispatch_begin e ev w) = closures w)
    by (unfold dispatch_begin; by destruct (_trace (this w))).
  assert (Hu0 : user (dispatch_begin e ev w) = user w)
    by (unfold dispatch_begin; by destruct (_trace (this w))).
  destruct (for_of_returning ret fuel (ByEmit (ndispatch w) General)
              [VStr e; VData ev] Hcode _ (dispatch_begin e ev w) HG)
    as (w1 & Hrun1 & Ht1 & Hc1 & Hu1 & Hlog1).
  fold rG in Hrun1, Hlog1.
  assert (Hcalls : ∀ w' (evs : list LogEvent),
            _emit code (S fuel) e ev w = Ok tt w' →
            log w' = log w ++ evs →
            direct_calls (ndispatch w) (emitted code (S fuel) e ev w)
            = direct_calls (ndispatch w) evs).
  { intros w' evs Hemit Hlog. unfold emitted. rewrite Hemit. simpl.
    by rewrite Hlog, drop_app_length. }
  destruct (rG.2) eqn:HrG.
  - assert (Hw1 : this w1 = this w) by congruence.
    rewrite <- Hw1 in HN.
    destruct (for_of_returning ret fuel (ByEmit (ndispatch w) Named)
                [VData ev] Hcode _ w1 HN)
      as (w2 & Hrun2 & Ht2 & Hc2 & Hu2 & Hlog2).
    rewrite Hw1 in Hrun2, Hlog2. fold rN in Hrun2, Hlog2.
    assert (Hemit : _emit code (S fuel) e ev w = Ok tt w2).
    { rewrite emit_unfold, general_phase_unfold, Hrun1. cbv beta iota.
      rewrite Hw1, Hrun2. done. }
    exists w2. split; [done|].
    split; [congruence|]. split; [congruence|]. split; [congruence|].
    rewrite (Hcalls w2 _ Hemit
               ltac:(rewrite Hlog2, Hlog1, E0, <- !app_assoc; reflexivity)).
    rewrite !direct_calls_app, D0, !direct_calls_loop_events. done.
  - assert (Hemit : _emit code (S fuel) e ev w = Ok tt w1)
      by (by rewrite emit_unfold, general_phase_unfold, Hrun1).
    exists w1. split; [done|].
    split; [congruence|]. split; [congruence|]. split; [congruence|].
    rewrite (Hcalls w1 _ Hemit
               ltac:(rewrite Hlog1, E0, <- !app_assoc; reflexivity)).
    rewrite !direct_calls_app, D0, !direct_calls_loop_events.
    simpl. by rewrite app_nil_r.
Qed.

(** *** One-time registrations *)

(** X10.  [addOneTimeEventListener(E, L)] allocates a stub that captures
    [E] and [L], different from every stub allocated before or after, and
    appends it to the array of [E]; [removeEventListener] with the returned
    stub takes it out again. *)
Theorem addOneTimeEventListener_registers_a_new_stub
    (E : string) (L : Func) w :
  let me := (addOneTimeEventListener E L w).1 in
  let w' := (addOneTimeEventListener E L w).2 in
  (∃ k, me = Me k ∧ closures w !! k = None ∧ closures w' !! k = Some (E, L)) ∧
  closures w `prefix_of` closures w' ∧
  listeners_of E (this w')
    = Some (default [] (listeners_of E (this w)) ++ [me]) ∧
  listeners_of E (removeEventListener E me (this w'))
    = Some (default [] (listeners_of E (this w))) ∧
  (∀ E2 L2, (addOneTimeEventListener E2 L2 w').1 ≠ me).
Proof.
  intros me w'. subst me w'. unfold addOneTimeEventListener. simpl.
  split.
  { exists (length (closures w)). split; [done|].
    split; [by apply lookup_ge_None_2|].
    by rewrite list_lookup_middle. }
  split; [by eexists|].
  split; [rewrite addEventListener_store; apply listeners_of_store_eq|].
  split.
  { rewrite remove_after_add_store. apply listeners_of_store_eq. }
  intros E2 L2. rewrite length_app. simpl. intros [= H]. lia.
Qed.

(** *** One-time listeners when nothing is emitted from a listener *)

Lemma calls_of_app (f : Func) evs1 evs2 :
  calls_of f (evs1 ++ evs2) = calls_of f evs1 + calls_of f evs2.
Proof. unfold calls_of. by rewrite List.filter_app, length_app. Qed.

Lemma dispatch_begin_calls (f : Func) e (ev : Payload) w :
  let w0 := dispatch_begin e ev w in
  this w0 = this w ∧ closures w0 = closures w ∧
  ∃ evs0, log w0 = log w ++ evs0 ∧ calls_of f evs0 = 0.
Proof.
  unfold dispatch_begin. destruct (_trace (this w)); simpl.
  - split; [done|]. split; [done|].
    exists [LConsole e ev; LDispatch (ndispatch w) e ev].
    by rewrite <- app_assoc.
  - split; [done|]. split; [done|]. by eexists [_].
Qed.

Lemma simple_world_shrinks w w' :
  simple_world w → shrinks (this w) (this w') →
  closures w' = closures w → simple_world w'.
Proof.
  intros Hw Hs Hc E' l' Hl'. rewrite Hc. apply Forall_forall. intros f Hf.
  apply registrations_present in Hf.
  specialize (Hs E' f). unfold regs_under in Hs. rewrite Hl' in Hs.
  simpl in Hs.
  destruct (listeners_of E' (this w)) as [l|] eqn:Hl; simpl in Hs.
  - specialize (Hw E' l Hl).
    eapply Forall_forall in Hw; [exact Hw|].
    apply registrations_positive. lia.
  - assert (H0 : registrations f [] = 0) by done. lia.
Qed.

(** One call of a simple listener, seen from the stub [Me k]. *)
Lemma call_simple_effect (ret : nat → list Value → RetVal) fuel k E n
    f (args : list Value) w :
  (∀ m a, code m a = Return (ret m a)) →
  closures w !! k = Some (E, User n) →
  simple_listener (closures w) f →
  (f = Me k → 1 ≤ regs_under (Me k) E (this w)) →
  ∃ r w' evs,
    call code (S (S fuel)) f args w = Ok r w' ∧
    closures w' = closures w ∧ log w' = log w ++ evs ∧
    calls_of (Me k) evs = 0 ∧
    shrinks (this w) (this w') ∧
    _eventListeners (this w') !! "*" = _eventListeners (this w) !! "*" ∧
    (if decide (f = Me k) then 1 else 0) + regs_under (Me k) E (this w')
      = regs_under (Me k) E (this w).
Proof.
  intros Hcode Hk Hf Hone. destruct f as [m|j].
  - exists (ret m args), w, [].
    rewrite call_S, Hcode. simpl.
    split; [done|]. split; [done|]. split; [by rewrite app_nil_r|].
    split; [done|]. split; [apply shrinks_refl|]. done.
  - destruct Hf as (Ej & nj & Hj).
    exists (ret nj args).
    eexists.
    exists [LCall (ByWrapper (Me j)) (User nj) args;
            LReturn (ByWrapper (Me j)) (User nj) (ret nj args)].
    rewrite call_S, Hj. cbv zeta. rewrite call_S, Hcode. cbn [run_prog].
    split; [reflexivity|]. simpl.
    split; [done|]. split; [by rewrite <- app_assoc|]. split; [done|].
    split; [apply shrinks_remove|].
    split; [apply star_removeEventListener|].
    rewrite regs_under_remove.
    destruct (decide (Me j = Me k)) as [Hjk|Hjk].
    + injection Hjk as ->. rewrite Hk in Hj. injection Hj as <- <-.
      rewrite decide_True by done. specialize (Hone eq_refl). lia.
    + rewrite decide_False by (intros [_ ?]; congruence). lia.
Qed.

(** A loop over simple listeners: every call of the stub [Me k] takes one of
    its registrations under [E] away. *)
Lemma for_of_simple (ret : nat → list Value → RetVal) fuel c
    (args : list Value) k E n :
  (∀ m a, code m a = Return (ret m a)) →
  ∀ (ls : list Func) w,
    closures w !! k = Some (E, User n) →
    Forall (simple_listener (closures w)) ls →
    registrations (Me k) ls ≤ regs_under (Me k) E (this w) →
    ∃ fl w' evs,
      for_of (call code (S (S fuel))) c args ls w = Ok fl w' ∧
      closures w' = closures w ∧ log w' = log w ++ evs ∧
      shrinks (this w) (this w') ∧
      _eventListeners (this w') !! "*" = _eventListeners (this w) !! "*" ∧
      calls_of (Me k) evs + regs_under (Me k) E (this w')
        = regs_under (Me k) E (this w).
Proof.
  intros Hcode ls. induction ls as [|l rest IH]; intros w Hk Hls Hle.
  - exists Continue, w, []. simpl.
    split; [done|]. split; [done|]. split; [by rewrite app_nil_r|].
    split; [apply shrinks_refl|]. done.
  - apply Forall_cons in Hls as [Hl Hrest].
    rewrite registrations_cons in Hle.
    destruct (call_simple_effect ret fuel k E n l args
                (log_event (LCall c l args) w) Hcode Hk Hl)
      as (r & w1 & evs1 & Hcall & Hc1 & Hl1 & Hno & Hs1 & Hst1 & Hacc).
    { intros ->. simpl. rewrite decide_True in Hle by done. lia. }
    simpl in Hc1, Hl1, Hs1, Hst1, Hacc.
    assert (Hcount : calls_of (Me k) (LCall c l args :: evs1 ++
                                      [LReturn c l r])
                     = if decide (l = Me k) then 1 else 0).
    { change (LCall c l args :: evs1 ++ [LReturn c l r])
        with ([LCall c l args : LogEvent] ++ evs1 ++ [LReturn c l r]).
      rewrite !calls_of_app, Hno. unfold calls_of. simpl.
      destruct (decide (l = Me k)) as [->|Hne].
      - by rewrite bool_decide_eq_true_2.
      - by rewrite bool_decide_eq_false_2. }
    cbn [for_of]. rewrite Hcall.
    destruct (decide (r = RFalse)) as [Hr|Hr].
    + eexists Halt, _, (LCall c l args :: evs1 ++ [LReturn c l r]).
      split; [reflexivity|]. simpl.
      split; [done|]. split; [by rewrite Hl1, <- !app_assoc|].
      split; [done|]. split; [done|]. rewrite Hcount. lia.
    + destruct (IH (log_event (LReturn c l r) w1))
        as (fl & w2 & evs2 & Hrun & Hc2 & Hl2 & Hs2 & Hst2 & Hacc2).
      * simpl. by rewrite Hc1.
      * simpl. by rewrite Hc1.
      * simpl. destruct (decide (l = Me k)); lia.
      * simpl in Hc2, Hl2, Hs2, Hst2, Hacc2.
        exists fl, w2, ((LCall c l args :: evs1 ++ [LReturn c l r]) ++ evs2).
        split; [done|]. split; [congruence|].
        split; [rewrite Hl2, Hl1; simpl; by rewrite <- !app_assoc|].
        split; [by eapply shrinks_trans|]. split; [congruence|].
        rewrite calls_of_app, Hcount. lia.
Qed.

(** One dispatch among simple listeners. *)
Lemma emit_simple (ret : nat → list Value → RetVal) fuel k E n
    e (ev : Payload) w :
  (∀ m a, code m a = Return (ret m a)) →
  closures w !! k = Some (E, User n) →
  simple_world w →
  _eventListeners (this w) !! "*" = None →
  (∀ E', E' ≠ E → regs_under (Me k) E' (this w) = 0) →
  ∃ w' evs,
    _emit code (S (S fuel)) e ev w = Ok tt w' ∧
    closures w' = closures w ∧ log w' = log w ++ evs ∧
    shrinks (this w) (this w') ∧
    _eventListeners (this w') !! "*" = None ∧
    calls_of (Me k) evs + regs_under (Me k) E (this w')
      = regs_under (Me k) E (this w).
Proof.
  intros Hcode Hk Hw Hstar Helse.
  destruct (dispatch_begin_calls (Me k) e ev w)
    as (Ht0 & Hc0 & evs0 & Hl0 & Hn0).
  set (w0 := dispatch_begin e ev w) in *.
  assert (Hbound : ∀ (em : EventEmitter) E',
            shrinks (this w) em →
            registrations (Me k) (default [] (listeners_of E' em))
            ≤ regs_under (Me k) E em).
  { intros em E' Hs. destruct (decide (E' = E)) as [->|Hne]; [done|].
    specialize (Hs E' (Me k)). rewrite (Helse E' Hne) in Hs.
    unfold regs_under in Hs. lia. }
  destruct (for_of_simple ret fuel (ByEmit (ndispatch w) General)
              [VStr e; VData ev] k E n Hcode
              (_generalListeners (this w)) w0)
    as (fl1 & w1 & evs1 & Hrun1 & Hc1 & Hl1 & Hs1 & Hst1 & Hacc1).
  { by rewrite Hc0. }
  { rewrite Hc0. apply (Hw "*"). unfold listeners_of.
    by rewrite decide_True. }
  { rewrite Ht0.
    specialize (Hbound (this w) "*" (shrinks_refl _)).
    unfold listeners_of in Hbound at 1.
    by rewrite decide_True in Hbound. }
  rewrite Ht0 in Hs1, Hst1, Hacc1.
  rewrite emit_unfold, general_phase_unfold. fold w0. rewrite Hrun1.
  destruct fl1.
  - assert (Hw1 : simple_world w1)
      by (eapply simple_world_shrinks; [exact Hw | done | congruence]).
    destruct (for_of_simple ret fuel (ByEmit (ndispatch w) Named)
                [VData ev] k E n Hcode
                (default [] (_eventListeners (this w1) !! e)) w1)
      as (fl2 & w2 & evs2 & Hrun2 & Hc2 & Hl2 & Hs2 & Hst2 & Hacc2).
    { congruence. }
    { destruct (decide (e = "*")) as [->|Hne].
      - rewrite Hst1, Hstar. constructor.
      - destruct (_eventListeners (this w1) !! e) as [l|] eqn:Hl;
          [|constructor].
        apply (Hw1 e). unfold listeners_of. by rewrite decide_False. }
    { destruct (decide (e = "*")) as [->|Hne].
      - rewrite Hst1, Hstar. unfold registrations. simpl. lia.
      - specialize (Hbound (this w1) e Hs1).
        unfold listeners_of in Hbound at 1.
        by rewrite decide_False in Hbound. }
    cbv beta iota. rewrite Hrun2. simpl.
    exists w2, (evs0 ++ evs1 ++ evs2).
    split; [done|]. split; [congruence|].
    split; [by rewrite Hl2, Hl1, Hl0, <- !app_assoc|].
    split; [by eapply shrinks_trans|]. split; [congruence|].
    rewrite !calls_of_app, Hn0. lia.
  - exists w1, (evs0 ++ evs1).
    split; [done|]. split; [congruence|].
    split; [by rewrite Hl1, Hl0, <- !app_assoc|].
    split; [done|]. split; [congruence|].
    rewrite calls_of_app, Hn0. lia.
Qed.

(** X11.  When the client's listeners only return a value (so that no
    listener emits or registers anything while it runs) and the registered
    stubs are stubs around such listeners, a stub registered under its own
    event [E] only loses one registration each time it is called, over any
    sequence of dispatches: the number of its calls plus the number of its
    registrations left is the number of its registrations at the start.  A
    listener added once with [addOneTimeEventListener] is thus called at
    most once, and is no longer registered once it has been called. *)
Theorem one_time_stub_is_called_once_per_registration
    (ret : nat → list Value → RetVal) fuel k E n
    (es : list (string * Payload)) w :
  (∀ m a, code m a = Return (ret m a)) →
  closures w !! k = Some (E, User n) →
  simple_world w →
  _eventListeners (this w) !! "*" = None →
  (∀ E', E' ≠ E → regs_under (Me k) E' (this w) = 0) →
  ∃ w' evs,
    emit_all code (S (S fuel)) es w = Ok tt w' ∧
    log w' = log w ++ evs ∧
    calls_of (Me k) evs + regs_under (Me k) E (this w')
      = regs_under (Me k) E (this w).
Proof.
  intros Hcode. revert w.
  induction es as [|[e ev] rest IH]; intros w Hk Hw Hstar Helse.
  - exists w, []. simpl. split; [done|]. by rewrite app_nil_r.
  - destruct (emit_simple ret fuel k E n e ev w Hcode Hk Hw Hstar Helse)
      as (w1 & evs1 & Hemit & Hc1 & Hl1 & Hs1 & Hst1 & Hacc1).
    destruct (IH w1) as (w2 & evs2 & Hall & Hl2 & Hacc2).
    + congruence.
    + eapply simple_world_shrinks; [exact Hw | done | done].
    + done.
    + intros E' Hne. specialize (Hs1 E' (Me k)).
      rewrite (Helse E' Hne) in Hs1. lia.
    + exists w2, (evs1 ++ evs2). cbn [emit_all]. rewrite Hemit.
      split; [done|]. split; [by rewrite Hl2, Hl1, <- app_assoc|].
      rewrite calls_of_app. lia.
Qed.

End DispatchFacts.

(** *** C1: the claim as it is stated fails *)


(** *** C3: the claim as it is stated fails *)

(** C3 as stated: a listener that removes itself while it is called is not
    called again by the same dispatch.  Here function 0 is registered twice
    for ["foo"] and removes both registrations when it is called: after its
    first call the array of ["foo"] is empty, and the dispatch calls it a
    second time. *)
Lemma self_removing_listener_is_called_again :
  let w := Scenarios.w_twice in
  let after_first_call :=
    world_of (call Scenarios.code_selfremove 1 (User 0) [VData 7] w) in
  _eventListeners (this w) !! "foo" = Some [User 0; User 0] ∧
  _eventListeners (this after_first_call) !! "foo" = Some [] ∧
  direct_calls (ndispatch w)
    (emitted Scenarios.code_selfremove 2 "foo" 7 w) =
    [(Named, User 0, [VData 7]); (Named, User 0, [VData 7])] ∧
  invocations (ndispatch w) (User 0)
    (emitted Scenarios.code_selfremove 2 "foo" 7 w) = 2.
Proof. vm_compute. repeat split. Qed.

(** *** C5: the claim as it is stated fails *)

(** C5 as stated: every wildcard listener is called unless an earlier
    listener of the dispatch returned [false].  Here functions 0 and 1
    listen to ["*"] and function 0 throws: [_emit] leaves by the exception,
    function 1 is not called, and no listener has returned anything. *)
Lemma throwing_wildcard_listener_ends_the_dispatch :
  let w := Scenarios.w_two_wild in
  let r := _emit Scenarios.code_throw 2 "foo" 7 w in
  _generalListeners (this w) = [User 0; User 1] ∧
  is_Ok r = false ∧
  emitted Scenarios.code_throw 2 "foo" 7 w =
    [LDispatch 0 "foo" 7;
     LCall (ByEmit 0 General) (User 0) [VStr "foo"; VData 7]] ∧
  direct_calls (ndispatch w) (emitted Scenarios.code_throw 2 "foo" 7 w) =
    [(General, User 0, [VStr "foo"; VData 7])] ∧
  halt_free (ndispatch w) (emitted Scenarios.code_throw 2 "foo" 7 w).
Proof. vm_compute. repeat split; repeat constructor. Qed.

(** *** C4 *)

(** C4.  The code at the input that breaks the claim: function 1 is
    registered once for ["foo"] with [addOneTimeEventListener], after
    function 0, which emits ["foo"] again when it receives 0.  In
    [_emit("foo", 0)] the stub is called by the nested dispatch, and then
    again by the outer one, whose copy of the array still holds it: function
    1 runs twice. *)
Theorem one_time_listener_runs_twice_when_the_event_is_reemitted :
  let w := Scenarios.w_once in
  let r := _emit Scenarios.code_reemit 4 "foo" 0 w in
  _eventListeners (this w) !! "foo" = Some [User 0; Me 0] ∧
  closures w = [("foo", User 1)] ∧
  is_Ok r = true ∧
  List.filter (wrapped_call (User 1))
    (emitted Scenarios.code_reemit 4 "foo" 0 w) =
    [LCall (ByWrapper (Me 0)) (User 1) [VData 1];
     LCall (ByWrapper (Me 0)) (User 1) [VData 0]] ∧
  wrapped_calls (User 1) (emitted Scenarios.code_reemit 4 "foo" 0 w) = 2.
Proof. vm_compute. repeat split. Qed.

(** ** The theorems at work on the scenarios *)

(** [removeEventListener] on an array that holds the listener twice. *)
Lemma removeEventListener_removes_the_last_registration_witness :
  let em := addEventListener "foo" (User 0)
              (addEventListener "foo" (User 1)
                 (addEventListener "foo" (User 0) new_EventEmitter)) in
  User 0 ∈ [User 0; User 1; User 0] ∧
  ∃ pre post,
    [User 0; User 1; User 0] = pre ++ User 0 :: post ∧ (User 0 ∉ post) ∧
    listeners_of "foo" (removeEventListener "foo" (User 0) em)
      = Some (pre ++ post).
Proof.
  intros em.
  assert (Hin : User 0 ∈ [User 0; User 1; User 0]) by constructor.
  split; [exact Hin|].
  pose proof (removeEventListener_removes_the_last_registration
                "foo" (User 0) em) as H.
  cbv zeta in H.
  replace (listeners_of "foo" em) with (Some [User 0; User 1; User 0]) in H
    by (vm_compute; reflexivity).
  destruct H as (_ & _ & _ & H). exact (H Hin).
Defined.

(** [removeAllListeners] on the wildcard array and on a named array. *)
Lemma removeAllListeners_empties_one_list_only_witness :
  let em := addEventListener "*" (User 1)
              (addEventListener "foo" (User 0) new_EventEmitter) in
  ("*" = "*" ∧
   _eventListeners (removeAllListeners "*" em) = _eventListeners em) ∧
  ("foo" ≠ "*" ∧
   _generalListeners (removeAllListeners "foo" em) = _generalListeners em) ∧
  ("*" ≠ "foo" ∧
   listeners_of "*" (removeAllListeners "foo" em) = listeners_of "*" em).
Proof.
  intros em.
  assert (Hne : "foo" ≠ "*") by discriminate.
  assert (Hne' : "*" ≠ "foo") by discriminate.
  split; [|split].
  - split; [reflexivity|].
    exact (proj1 (proj2 (proj2 (proj2
             (removeAllListeners_empties_one_list_only "*" em)))) eq_refl).
  - split; [exact Hne|].
    exact (proj2 (proj2 (proj2 (proj2
             (removeAllListeners_empties_one_list_only "foo" em)))) Hne).
  - split; [exact Hne'|].
    exact (proj1 (proj2 (proj2
             (removeAllListeners_empties_one_list_only "foo" em))) "*" Hne').
Defined.

(** A listener of ["foo"] that returns [false], between two others: its
    return is the last entry of the log and the loop stops there; and a
    dispatch in which nobody returns [false] calls every listener. *)
Lemma halt_ends_its_own_dispatch_only_witness :
  let w := Scenarios.w_halt_mid in
  let evs := emitted Scenarios.code_halt 2 "foo" 7 w in
  let c := ByEmit 0 Named in
  let pre := [LDispatch 0 "foo" 7;
              LCall c (User 1) [VData 7]; LReturn c (User 1) RUndefined;
              LCall c (User 0) [VData 7]] in
  let w' := world_of (call Scenarios.code_halt 2 (User 0) [VData 7]
                        (log_event (LCall c (User 0) [VData 7]) w)) in
  let wq := Scenarios.w_quiet in
  let evsq := emitted Scenarios.code_halt 2 "foo" 7 wq in
  (evs = pre ++ LReturn c (User 0) RFalse :: drop 5 evs ∧ drop 5 evs = []) ∧
  (call Scenarios.code_halt 2 (User 0) [VData 7]
     (log_event (LCall c (User 0) [VData 7]) w) = Ok RFalse w' ∧
   for_of (call Scenarios.code_halt 2) c [VData 7] [User 0; User 2] w
     = Ok Halt (log_event (LReturn c (User 0) RFalse) w')) ∧
  (is_Ok (_emit Scenarios.code_halt 2 "foo" 7 wq) = true ∧
   halt_free 0 evsq ∧
   ∃ w1,
     general_phase Scenarios.code_halt 2 "foo" 7 wq = Ok Continue w1 ∧
     direct_calls 0 evsq =
       map (λ l, (General, l, [VStr "foo"; VData 7]))
         (_generalListeners (this wq)) ++
       map (λ l, (Named, l, [VData 7]))
         (default [] (_eventListeners (this w1) !! "foo"))).
Proof.
  intros w evs c pre w' wq evsq.
  assert (H0 : evs = pre ++ LReturn c (User 0) RFalse :: drop 5 evs)
    by (vm_compute; reflexivity).
  assert (Hc : call Scenarios.code_halt 2 (User 0) [VData 7]
                 (log_event (LCall c (User 0) [VData 7]) w) = Ok RFalse w')
    by reflexivity.
  assert (H1 : is_Ok (_emit Scenarios.code_halt 2 "foo" 7 wq) = true)
    by (vm_compute; reflexivity).
  assert (H2 : halt_free 0 evsq)
    by (vm_compute; repeat constructor).
  pose proof (halt_ends_its_own_dispatch_only Scenarios.code_halt
                2 "foo" 7 w) as (Hlast & Hloop & _ & _).
  pose proof (halt_ends_its_own_dispatch_only Scenarios.code_halt
                2 "foo" 7 wq) as (_ & _ & Hfull & _).
  split; [|split].
  - split; [exact H0|]. exact (Hlast pre Named (User 0) _ H0).
  - split; [exact Hc|]. exact (Hloop c [VData 7] (User 0) [User 2] w w' Hc).
  - split; [exact H1|]. split; [exact H2|]. exact (Hfull H1 H2).
Defined.

(** A one-time listener that returns [false] stops the loop. *)
Lemma one_time_stub_returns_what_the_listener_returns_witness :
  let w0 := Scenarios.w_once_halt in
  let c := ByEmit 0 Named in
  let w := log_event (LCall c (Me 0) [VData 7]) w0 in
  let w1 := log_event (LCall (ByWrapper (Me 0)) (User 0) [VData 7])
              (upd_this (removeEventListener "foo" (Me 0)) w) in
  let w2 := world_of (call Scenarios.code_halt 1 (User 0) [VData 7] w1) in
  closures w !! 0 = Some ("foo", User 0) ∧
  call Scenarios.code_halt 1 (User 0) [VData 7] w1 = Ok RFalse w2 ∧
  for_of (call Scenarios.code_halt 2) c [VData 7] [Me 0; User 1] w0 =
    Ok Halt (log_event (LReturn c (Me 0) RFalse)
               (log_event (LReturn (ByWrapper (Me 0)) (User 0) RFalse) w2)).
Proof.
  intros w0 c w w1 w2.
  assert (Hk : closures w !! 0 = Some ("foo", User 0)) by reflexivity.
  assert (HL : call Scenarios.code_halt 1 (User 0) [VData 7] w1
               = Ok RFalse w2) by reflexivity.
  split; [exact Hk|]. split; [exact HL|].
  exact (proj2 (one_time_stub_returns_what_the_listener_returns
                  Scenarios.code_halt 1 0 "foo" (User 0) [VData 7] w Hk)
           w2 HL c [User 1] w0 eq_refl).
Defined.

(** [addEventListener] leaves the wildcard array alone when it adds to
    ["foo"]. *)
Lemma addEventListener_appends_to_one_list_witness :
  "*" ≠ "foo" ∧
  listeners_of "*" (addEventListener "foo" (User 2) Scenarios.em_three)
    = listeners_of "*" Scenarios.em_three.
Proof.
  assert (Hne : "*" ≠ "foo") by discriminate.
  split; [exact Hne|].
  exact (proj2 (proj2 (addEventListener_appends_to_one_list
                         "foo" (User 2) Scenarios.em_three)) "*" Hne).
Defined.

(** Adding to an array that exists and removing again gives the emitter
    back. *)
Lemma remove_after_add_restores_the_list_witness :
  is_Some (listeners_of "foo" Scenarios.em_three) ∧
  removeEventListener "foo" (User 2)
    (addEventListener "foo" (User 2) Scenarios.em_three)
    = Scenarios.em_three.
Proof.
  assert (H : is_Some (listeners_of "foo" Scenarios.em_three))
    by (by eexists).
  split; [exact H|].
  exact (proj1 (proj2 (proj2 (remove_after_add_restores_the_list
                                "foo" (User 2) Scenarios.em_three))) H).
Defined.

(** Removing a listener that is registered twice leaves it registered
    once. *)
Lemma removeEventListener_takes_one_registration_witness :
  listeners_of "foo" Scenarios.em_three = Some [User 0; User 1; User 0] ∧
  ∃ l', listeners_of "foo"
          (removeEventListener "foo" (User 0) Scenarios.em_three) = Some l' ∧
    length l' = 3 - (if decide (User 0 ∈ [User 0; User 1; User 0])
                     then 1 else 0) ∧
    ∀ L', registrations L' l' =
          registrations L' [User 0; User 1; User 0]
          - (if decide (L' = User 0) then 1 else 0).
Proof.
  assert (H : listeners_of "foo" Scenarios.em_three
              = Some [User 0; User 1; User 0]) by (vm_compute; reflexivity).
  split; [exact H|].
  exact (removeEventListener_takes_one_registration
           "foo" (User 0) Scenarios.em_three _ H).
Defined.

(** An emitter as the constructor makes it prints nothing. *)
Lemma emit_never_writes_trace_witness :
  _trace (this Scenarios.w_quiet) = false ∧
  Forall (λ x, is_console x = false)
    (emitted Scenarios.code_halt 2 "foo" 7 Scenarios.w_quiet).
Proof.
  assert (H : _trace (this Scenarios.w_quiet) = false) by reflexivity.
  split; [exact H|].
  exact (proj2 (emit_never_writes_trace Scenarios.code_halt 2 "foo" 7
                  Scenarios.w_quiet) H).
Defined.

(** [_emit("*", 7)] on an emitter with a listener registered by name. *)
Lemma star_is_never_a_name_witness :
  _eventListeners (this Scenarios.w_quiet) !! "*" = None ∧
  ∃ pG, pG `prefix_of` _generalListeners (this Scenarios.w_quiet) ∧
    direct_calls (ndispatch Scenarios.w_quiet)
      (emitted Scenarios.code_halt 2 "*" 7 Scenarios.w_quiet) =
      map (λ l, (General, l, [VStr "*"; VData 7])) pG.
Proof.
  assert (H : _eventListeners (this Scenarios.w_quiet) !! "*" = None)
    by (vm_compute; reflexivity).
  split; [exact H|].
  exact (proj2 (star_is_never_a_name Scenarios.code_halt 2 "*" 7
                  Scenarios.w_quiet H) eq_refl).
Defined.

(** A wildcard listener that returns [false]. *)
Lemma wildcard_false_skips_the_named_listeners_witness :
  let w := Scenarios.w_wild_halt in
  let w' := world_of (general_phase Scenarios.code_halt 2 "foo" 7 w) in
  general_phase Scenarios.code_halt 2 "foo" 7 w = Ok Halt w' ∧
  _emit Scenarios.code_halt 2 "foo" 7 w = Ok tt w'.
Proof.
  intros w w'.
  assert (H : general_phase Scenarios.code_halt 2 "foo" 7 w = Ok Halt w')
    by (vm_compute; reflexivity).
  split; [exact H|].
  exact (proj1 (wildcard_false_skips_the_named_listeners
                  Scenarios.code_halt 2 "foo" 7 w w' H)).
Defined.

(** Listeners that only return: the wildcard listener, then the two
    listeners of ["foo"]. *)
Lemma emit_of_listeners_that_only_return_witness :
  let w := Scenarios.w_quiet in
  (∀ n a, Scenarios.code_halt n a = Return (Scenarios.ret_halt n a)) ∧
  Forall (λ f, is_user f = true) (_generalListeners (this w)) ∧
  Forall (λ f, is_user f = true)
    (default [] (_eventListeners (this w) !! "foo")) ∧
  ∃ w', _emit Scenarios.code_halt 1 "foo" 7 w = Ok tt w' ∧
    this w' = this w ∧
    direct_calls (ndispatch w) (emitted Scenarios.code_halt 1 "foo" 7 w) =
      [(General, User 3, [VStr "foo"; VData 7]);
       (Named, User 1, [VData 7]); (Named, User 2, [VData 7])].
Proof.
  intros w.
  assert (H1 : ∀ n a,
            Scenarios.code_halt n a = Return (Scenarios.ret_halt n a))
    by (by intros [|n] a).
  assert (H2 : Forall (λ f, is_user f = true) (_generalListeners (this w)))
    by (vm_compute; repeat constructor).
  assert (H3 : Forall (λ f, is_user f = true)
                 (default [] (_eventListeners (this w) !! "foo")))
    by (vm_compute; repeat constructor).
  split; [exact H1|]. split; [exact H2|]. split; [exact H3|].
  destruct (emit_of_listeners_that_only_return Scenarios.code_halt
              Scenarios.ret_halt 0 "foo" 7 w H1 H2 H3)
    as (w' & Hemit & Hthis & _ & _ & Hcalls).
  exists w'. split; [exact Hemit|]. split; [exact Hthis|].
  rewrite Hcalls. vm_compute. reflexivity.
Defined.

(** A one-time listener of ["foo"], and ["foo"] emitted three times. *)
Lemma one_time_stub_is_called_once_per_registration_witness :
  let w := Scenarios.w_once_quiet in
  let es := [("foo", 1); ("bar", 2); ("foo", 3)] in
  (∀ n a, Scenarios.code_halt n a = Return (Scenarios.ret_halt n a)) ∧
  closures w !! 0 = Some ("foo", User 1) ∧
  simple_world w ∧
  _eventListeners (this w) !! "*" = None ∧
  (∀ E', E' ≠ "foo" → regs_under (Me 0) E' (this w) = 0) ∧
  regs_under (Me 0) "foo" (this w) = 1 ∧
  ∃ w' evs,
    emit_all Scenarios.code_halt 2 es w = Ok tt w' ∧
    log w' = log w ++ evs ∧
    calls_of (Me 0) evs + regs_under (Me 0) "foo" (this w') = 1.
Proof.
  intros w es.
  assert (H1 : ∀ n a,
            Scenarios.code_halt n a = Return (Scenarios.ret_halt n a))
    by (by intros [|n] a).
  assert (H2 : closures w !! 0 = Some ("foo", User 1)) by reflexivity.
  assert (Hm : _eventListeners (this w) = {["foo" := [Me 0; User 2]]})
    by (vm_compute; reflexivity).
  assert (Hg : _generalListeners (this w) = []) by reflexivity.
  assert (H3 : simple_world w).
  { intros E' l. unfold listeners_of. rewrite Hm, Hg.
    case_decide; [intros [= <-]; constructor|].
    intros [<- <-]%lookup_singleton_Some.
    repeat constructor. by exists "foo", 1. }
  assert (H4 : _eventListeners (this w) !! "*" = None)
    by (vm_compute; reflexivity).
  assert (H5 : ∀ E', E' ≠ "foo" → regs_under (Me 0) E' (this w) = 0).
  { intros E' Hne. unfold regs_under, listeners_of. rewrite Hm, Hg.
    case_decide; [done|]. by rewrite lookup_singleton_ne. }
  assert (H6 : regs_under (Me 0) "foo" (this w) = 1)
    by (vm_compute; reflexivity).
  split; [exact H1|]. split; [exact H2|]. split; [exact H3|].
  split; [exact H4|]. split; [exact H5|]. split; [exact H6|].
  destruct (one_time_stub_is_called_once_per_registration
              Scenarios.code_halt Scenarios.ret_halt 0 0 "foo" 1 es w
              H1 H2 H3 H4 H5) as (w' & evs & Hall & Hlog & Hacc).
  exists w', evs. split; [exact Hall|]. split; [exact Hlog|].
  rewrite Hacc. exact H6.
Defined.
